(** * amass/dns.go: DNS resolution and wildcard suppression

    A shallow embedding of the DNS service of amass (file [amass/dns.go])
    and the properties of its resolver pool, query engine, wildcard
    detector and request pipeline.

    Go strings are byte strings and are modelled by [string]; Go [int]
    values that only count or index are [nat], and [Z] is used where the
    source subtracts lengths.  The calls that reach the network or the
    random number generator are threaded through a small state monad whose
    state is the log of DNS queries issued so far and the position in the
    stream of random integers; a run-time panic (index out of range,
    division by zero) is an outcome of its own. *)

From stdpp Require Import gmap strings list.
From Stdlib Require Import Ascii String ZArith Lia.

Local Open Scope string_scope.
Local Open Scope list_scope.
Local Open Scope nat_scope.

(** ** Constants of the source *)

Definition maxNameLen : nat := 253.
Definition maxLabelLen : nat := 63.
Definition ldhChars : string := "abcdefghijklmnopqrstuvwxyz0123456789-".

Definition knownPublicServers : list string :=
  [ "8.8.8.8:53"; "64.6.64.6:53"; "9.9.9.9:53"; "84.200.69.80:53";
    "8.26.56.26:53"; "208.67.222.222:53"; "195.46.39.39:53";
    "69.195.152.204:53"; "216.146.35.35:53"; "37.235.1.174:53";
    "198.101.242.72:53"; "77.88.8.8:53"; "91.239.100.100:53";
    "74.82.42.42:53"; "156.154.70.1:53"; "8.8.4.4:53";
    "149.112.112.112:53"; "84.200.70.40:53"; "8.20.247.20:53";
    "208.67.220.220:53"; "195.46.39.40:53"; "216.146.36.36:53";
    "77.88.8.1:53"; "89.233.43.71:53"; "156.154.71.1:53" ].

(** ** The Go string functions the source calls *)

Module GoStrings.

(** [strings.Split(s, sep)] for a one-byte separator: the pieces between
    the separators, always at least one piece. *)
Fixpoint Split (s : string) (sep : ascii) : list string :=
  match s with
  | EmptyString => [EmptyString]
  | String c rest =>
      if Ascii.eqb c sep then EmptyString :: Split rest sep
      else match Split rest sep with
           | piece :: pieces => String c piece :: pieces
           | [] => [String c EmptyString]
           end
  end.

(** [strings.Join(elems, sep)]. *)
Fixpoint Join (elems : list string) (sep : string) : string :=
  match elems with
  | [] => EmptyString
  | [e] => e
  | e :: rest => e +:+ sep +:+ Join rest sep
  end.

(** [strings.HasSuffix(s, suffix)]:
    [len(s) >= len(suffix) && s[len(s)-len(suffix):] == suffix]. *)
Definition HasSuffix (s suffix : string) : bool :=
  (String.length suffix <=? String.length s)%nat
  && String.eqb
       (substring (String.length s - String.length suffix)
                  (String.length suffix) s)
       suffix.

End GoStrings.
Import GoStrings.

(** ** Data model *)

(** Modelled from the spec: the answer record [recon.DNSAnswer] belongs to
    the DNS library, which is not part of the sources; the spec gives it
    as the tuple (name, rrtype, data, ttl). *)
Record DNSAnswer := mkAnswer {
  ansName : string;
  ansType : nat;
  ansTTL : nat;
  ansData : string
}.

(** Modelled from the spec: the tag constants are declared in another file
    of the repository; the spec lists them as a closed set. *)
Inductive Tag := SEARCH | DNS | BRUTE | ALT | ARCHIVE | CERT | SCRAPE.

#[global] Instance Tag_eq_dec : EqDecision Tag.
Proof. solve_decision. Defined.

(** Modelled from the spec: the request record [AmassRequest] is declared
    in another file of the repository; [dns.go] reads and writes these five
    fields. *)
Record AmassRequest := mkRequest {
  reqName : string;
  reqDomain : string;
  reqAddress : string;
  reqTag : Tag;
  reqSource : string
}.

(** Modelled from the spec: the string-set utility (package [stringset]) is
    not among the sources; the spec describes it as a set of strings with
    insertion, membership, emptiness and equality. *)
Module stringset.
Definition StringSet : Type := gset string.
Definition NewStringSet : StringSet := ∅.
Definition Add (ss : StringSet) (s : string) : StringSet := ss ∪ {[ s ]}.
Definition Contains (ss : StringSet) (s : string) : bool := bool_decide (s ∈ ss).
Definition Empty (ss : StringSet) : bool := bool_decide (ss = ∅).
Definition Equal (ss other : StringSet) : bool := bool_decide (ss = other).
End stringset.

(** A cache entry of the wildcard detector.  [Answers] is a pointer in the
    source and is [nil] when no wildcard was found. *)
Record dnsWildcard := mkWildcard {
  HasWildcard : bool;
  Answers : option stringset.StringSet
}.

(** ** The effects: query log, random stream, panics *)

(** One call of [recon.ResolveDNS]: name, server, record type. *)
Definition Query : Type := string * string * string.

Record World := mkWorld {
  cursor : nat;                  (* how many random integers were drawn *)
  qlog : list Query;             (* the queries issued, oldest first *)
  usableServers : list string    (* the package variable of that name *)
}.

Inductive Outcome (A : Type) : Type :=
| Done (a : A) (w : World)
| Panic (w : World).
Arguments Done {A} a w.
Arguments Panic {A} w.

Definition M (A : Type) : Type := World -> Outcome A.

#[global] Instance M_ret : MRet M := fun A a w => Done a w.
#[global] Instance M_bind : MBind M := fun A B k m w =>
  match m w with
  | Done a w' => k a w'
  | Panic w' => Panic w'
  end.

Definition panic {A : Type} : M A := fun w => Panic w.

(** The world an outcome ends in, and the queries it added to a log. *)
Definition finalWorld {A : Type} (o : Outcome A) : World :=
  match o with Done _ w => w | Panic w => w end.

Definition isPanic {A : Type} (o : Outcome A) : bool :=
  match o with Done _ _ => false | Panic _ => true end.

Definition result {A : Type} (o : Outcome A) : option A :=
  match o with Done a _ => Some a | Panic _ => None end.

Definition isQType (t : string) (q : Query) : bool := String.eqb (snd q) t.

Definition countQType (t : string) (qs : list Query) : nat :=
  List.length (filter (fun q => isQType t q = true) qs).

(** ** Fixtures for the worked examples *)

Module Mock.

(** Modelled from the spec: [trim252F] is declared in another file of the
    repository; the spec has it strip any leading URL-encoded forward
    slash, [%2F] in either case. *)
Fixpoint trim252F (name : string) : string :=
  match name with
  | String "%" (String "2" (String c rest)) =>
      if Ascii.eqb c "f" || Ascii.eqb c "F" then trim252F rest else name
  | _ => name
  end.

(** Modelled from the spec: [recon.GetARecordData] belongs to the DNS
    library; the spec has it return the address of the first A record,
    and nothing when there is none.  Record type 1 is A. *)
Fixpoint GetARecordData (answers : list DNSAnswer) : string :=
  match answers with
  | [] => ""
  | a :: rest => if ansType a =? 1 then ansData a else GetARecordData rest
  end.

Definition noAnswer : list DNSAnswer * option string :=
  ([], Some "no answer").

(** The start-up probe succeeds on one server only. *)
Definition probeAnswer (name server : string)
  : option (list DNSAnswer * option string) :=
  if String.eqb name "google.com" then
    Some (if String.eqb server "8.8.8.8:53"
          then ([mkAnswer name 1 300 "142.250.0.1"], None)
          else noAnswer)
  else None.

(** A resolver that answers nothing at all. *)
Definition resolverDown (name server qtype : string)
  : list DNSAnswer * option string := noAnswer.

(** [a.example.com] is an alias of [x.notexample.com], which has the
    address 1.2.3.4; nothing else exists. *)
Definition resolverAlias (name server qtype : string)
  : list DNSAnswer * option string :=
  if String.eqb qtype "A" then
    match probeAnswer name server with
    | Some r => r
    | None =>
        if String.eqb name "x.notexample.com"
        then ([mkAnswer name 1 300 "1.2.3.4"], None)
        else noAnswer
    end
  else if String.eqb qtype "CNAME" then
    if String.eqb name "a.example.com"
    then ([mkAnswer name 5 300 "x.notexample.com"], None)
    else noAnswer
  else noAnswer.

(** Every name under [wild.com] has the address 10.0.0.1. *)
Definition resolverWild (name server qtype : string)
  : list DNSAnswer * option string :=
  if String.eqb qtype "A" then
    match probeAnswer name server with
    | Some r => r
    | None =>
        if HasSuffix name ".wild.com"
        then ([mkAnswer name 1 300 "10.0.0.1"], None)
        else noAnswer
    end
  else noAnswer.

(** A CNAME lookup that reports success and carries no answer. *)
Definition resolverEmpty (name server qtype : string)
  : list DNSAnswer * option string :=
  if String.eqb qtype "CNAME" then ([], None) else noAnswer.

Definition rnd (n : nat) : nat := 5 * n + 3.

(** Random integers that leave the alphabet in place when it is shuffled
    and then always select its last character, the hyphen. *)
Definition rndHyphen (n : nat) : nat := if n <? 36 then 36 - n else 36.

(** The world before start-up, and a world whose pool holds one server. *)
Definition fresh : World := mkWorld 0 [] [].
Definition ready : World := mkWorld 0 [] ["8.8.8.8:53"].

Definition label49 : string :=
  "aaaaaaaaaaaaaaaaaaaaaaaaaaaaaaaaaaaaaaaaaaaaaaaaa".

(** A suffix of 203 characters. *)
Definition longSuffix : string :=
  label49 +:+ "." +:+ label49 +:+ "." +:+ label49 +:+ "." +:+ label49
  +:+ ".abc".

Definition fooWild (tag : Tag) : AmassRequest :=
  mkRequest "foo.wild.com" "wild.com" "" tag "bing".

Definition aliasRequest : AmassRequest :=
  mkRequest "a.example.com" "example.com" "" BRUTE "brute".

End Mock.

Section Service.

(** The DNS library: [recon.ResolveDNS(name, server, qtype)] returns the
    answers and an error, [None] standing for [nil]. *)
Variable ResolveDNS : string -> string -> string -> list DNSAnswer * option string.

(** [recon.GetARecordData]: the address the pipeline reports for a list
    of answers, empty when there is none. *)
Variable GetARecordData : list DNSAnswer -> string.

(** The name normaliser, declared in another file of the repository. *)
Variable trim252F : string -> string.

(** The integers [math/rand] hands out, in order. *)
Variable rnd : nat -> nat.

(** *** Primitive effects *)

Definition resolve (name server qtype : string)
  : M (list DNSAnswer * option string) :=
  fun w => Done (ResolveDNS name server qtype)
                (mkWorld (cursor w) (qlog w ++ [(name, server, qtype)])
                         (usableServers w)).

(** [rand.Int()]. *)
Definition randInt : M nat :=
  fun w => Done (rnd (cursor w))
                (mkWorld (S (cursor w)) (qlog w) (usableServers w)).

(** *** Resolver pool *)

(** The loop of [testPublicServers] over a list of servers, appending to
    [working]. *)
Fixpoint testServers (servers working : list string) : M (list string) :=
  match servers with
  | [] => mret working
  | server :: rest =>
      r ← resolve "google.com" server "A";
      match snd r with
      | None => testServers rest (working ++ [server])
      | Some _ => testServers rest working
      end
  end.

Definition testPublicServers : M (list string) :=
  testServers knownPublicServers [].

(** [init] stores the result in the package variable. *)
Definition setUsableServers (working : list string) : M unit :=
  fun w => Done tt (mkWorld (cursor w) (qlog w) working).

Definition init : M unit :=
  working ← testPublicServers;
  setUsableServers working.

Definition Nameservers : M (list string) :=
  fun w => Done (usableServers w) w.

(** [num % len(usableServers)] divides by zero on an empty pool. *)
Definition NextNameserver : M string :=
  num ← randInt;
  servers ← Nameservers;
  match List.length servers with
  | O => panic
  | S _ =>
      match servers !! (num mod List.length servers) with
      | Some server => mret server
      | None => panic
      end
  end.

(** *** Query engine *)

(** The loop of [recursiveCNAME] with [n] iterations left. *)
Fixpoint cnameLoop (n : nat) (server : string)
         (answers : list DNSAnswer) (name : string)
  : M (list DNSAnswer * string) :=
  match n with
  | O => mret (answers, name)
  | S n' =>
      r ← resolve name server "CNAME";
      match snd r with
      | Some _ => mret (answers, name)
      | None =>
          match fst r with
          | [] => panic                       (* a[0] on an empty slice *)
          | a0 :: _ => cnameLoop n' server (answers ++ [a0]) (ansData a0)
          end
      end
  end.

Definition recursiveCNAME (name server : string)
  : M (list DNSAnswer * string) :=
  cnameLoop 10 server [] name.

Definition noRecordsError : string :=
  "No A or AAAA records resolved for the name".

Definition dnsQuery (domain name server : string)
  : M (list DNSAnswer * option string) :=
  '(answers, name) ← recursiveCNAME name server;
  a ← resolve name server "A";
  let '(answers, resolved) :=
    match snd a with
    | None => (answers ++ fst a, true)
    | Some _ => (answers, false)
    end in
  aaaa ← resolve name server "AAAA";
  let '(answers, resolved) :=
    match snd aaaa with
    | None => (answers ++ fst aaaa, true)
    | Some _ => (answers, resolved)
    end in
  if resolved then mret (answers, None)
  else mret ([], Some noRecordsError).

(** *** Wildcard detection *)

(** [rand.Shuffle(n, swap)] with the swap function of [unlikelyName]:
    the Fisher-Yates loop of [math/rand], which for [i] from [n-1] down
    to [1] draws [j] in [[0, i]] and swaps positions [i] and [j].  The
    draw is the next random integer modulo [i+1]. *)
Fixpoint shuffleLoop (i : nat) (ldh : list ascii) : M (list ascii) :=
  match i with
  | O => mret ldh
  | S i' =>
      r ← randInt;
      let j := r mod (S i) in
      match ldh !! i, ldh !! j with
      | Some ci, Some cj => shuffleLoop i' (<[j := ci]> (<[i := cj]> ldh))
      | _, _ => panic
      end
  end.

Definition Shuffle (n : nat) (ldh : list ascii) : M (list ascii) :=
  shuffleLoop (n - 1) ldh.

(** The character loop of [unlikelyName]: [n] iterations left, [i] the
    loop counter, [l] the chosen length. *)
Fixpoint labelLoop (n i : nat) (l : Z) (ldh : list ascii) (ldhLen : nat)
         (newlabel : string) : M string :=
  match n with
  | O => mret newlabel
  | S n' =>
      r ← randInt;
      let sel := r mod ldhLen in
      match ldh !! sel with
      | None => panic
      | Some c =>
          if ((Z.of_nat i =? 0)%Z || (Z.of_nat i =? l - 1)%Z)
             && Ascii.eqb c "-"
          then labelLoop n' (S i) l ldh ldhLen newlabel          (* continue *)
          else labelLoop n' (S i) l ldh ldhLen (newlabel +:+ String c EmptyString)
      end
  end.

(** The label of [unlikelyName] once the length [l] is fixed. *)
Definition unlikelyLabel (l : Z) : M string :=
  let ldh := list_ascii_of_string ldhChars in
  let ldhLen := List.length ldh in
  ldh' ← Shuffle ldhLen ldh;
  labelLoop (Z.to_nat l) 0 l ldh' ldhLen "".

(** The length [unlikelyName] settles on, [None] when it gives up. *)
Definition labelLength (sub : string) : option Z :=
  let l := (Z.of_nat maxNameLen - Z.of_nat (String.length sub))%Z in
  if (l >? Z.of_nat maxLabelLen)%Z then Some (Z.of_nat maxLabelLen / 2)%Z
  else if (l <? 1)%Z then None
  else Some l.

Definition unlikelyName (sub : string) : M string :=
  match labelLength sub with
  | None => mret ""
  | Some l =>
      newlabel ← unlikelyLabel l;
      if String.eqb newlabel "" then mret newlabel
      else mret (newlabel +:+ "." +:+ sub)
  end.

Fixpoint answersToStringSet_loop (answers : list DNSAnswer)
         (ss : stringset.StringSet) : stringset.StringSet :=
  match answers with
  | [] => ss
  | a :: rest => answersToStringSet_loop rest (stringset.Add ss (ansData a))
  end.

Definition answersToStringSet (answers : list DNSAnswer) : stringset.StringSet :=
  answersToStringSet_loop answers stringset.NewStringSet.

(** [None] is the [nil] set. *)
Definition checkForWildcard (sub root server : string)
  : M (option stringset.StringSet) :=
  name ← unlikelyName sub;
  if negb (String.eqb name "") then
    r ← dnsQuery root name server;
    match snd r with
    | None => mret (Some (answersToStringSet (fst r)))
    | Some _ => mret None
    end
  else mret None.

Definition wildcardDetection (sub root : string)
  : M (option stringset.StringSet) :=
  server ← NextNameserver;
  ss1 ← checkForWildcard sub root server;
  match ss1 with
  | None => mret None
  | Some s1 =>
      ss2 ← checkForWildcard sub root server;
      match ss2 with
      | None => mret None
      | Some s2 =>
          ss3 ← checkForWildcard sub root server;
          match ss3 with
          | None => mret None
          | Some s3 =>
              if negb (stringset.Empty s1)
                 && (stringset.Equal s1 s2 && stringset.Equal s2 s3)
              then mret (Some s1)
              else mret None
          end
      end
  end.

(** The suffix [strings.Join(labels[i:], ".")]. *)
Definition suffixAt (labels : list string) (i : nat) : string :=
  Join (drop i labels) ".".

(** The cache lookup and fill of one iteration of [matchesWildcard]. *)
Definition lookupOrDetect (sub root : string)
           (wildcards : gmap string dnsWildcard)
  : M (dnsWildcard * gmap string dnsWildcard) :=
  match wildcards !! sub with
  | Some w => mret (w, wildcards)
  | None =>
      ss ← wildcardDetection sub root;
      let entry :=
        match ss with
        | Some s => mkWildcard true (Some s)
        | None => mkWildcard false None
        end in
      mret (entry, <[sub := entry]> wildcards)
  end.

(** [w.HasWildcard && w.Answers.Contains(ip)]; the method call on a nil
    set is a panic. *)
Definition entryMatches (w : dnsWildcard) (ip : string) : M bool :=
  if HasWildcard w then
    match Answers w with
    | Some s => mret (stringset.Contains s ip)
    | None => panic
    end
  else mret false.

(** The loop of [matchesWildcard], [i] running down to 1. *)
Fixpoint wildcardLoop (i : nat) (labels : list string) (root ip : string)
         (wildcards : gmap string dnsWildcard) (answer : bool)
  : M (bool * gmap string dnsWildcard) :=
  match i with
  | O => mret (answer, wildcards)
  | S i' =>
      let sub := suffixAt labels i in
      '(w, wildcards) ← lookupOrDetect sub root wildcards;
      hit ← entryMatches w ip;
      wildcardLoop i' labels root ip wildcards (if (hit : bool) then true else answer)
  end.

Definition matchesWildcard (name root ip : string)
           (wildcards : gmap string dnsWildcard)
  : M (bool * gmap string dnsWildcard) :=
  let base := List.length (Split root ".") in
  let labels := Split name "." in
  wildcardLoop (List.length labels - base) labels root ip wildcards false.

(** *** Request pipeline *)

(** [sendOut] normalises the name and writes the request to the output. *)
Definition sendOut (req : AmassRequest) : AmassRequest :=
  mkRequest (trim252F (reqName req)) (reqDomain req) (reqAddress req)
            (reqTag req) (reqSource req).

(** The loop of [performDNSRequest] over the answers: the requests
    written to the output, in program order. *)
Fixpoint forwardAnswers (req : AmassRequest) (ipstr : string)
         (answers : list DNSAnswer) : list AmassRequest :=
  match answers with
  | [] => []
  | record :: rest =>
      if negb (HasSuffix (ansName record) (reqDomain req))
      then forwardAnswers req ipstr rest
      else
        let '(tag, source) :=
          if String.eqb (ansName record) (reqName req)
          then (reqTag req, reqSource req)
          else (DNS, "DNS") in
        sendOut (mkRequest (ansName record) (reqDomain req) ipstr tag source)
        :: forwardAnswers req ipstr rest
  end.

(** How one run of [performDNSRequest] ends: at one of its three early
    returns, or after the loop that forwards the answers. *)
Inductive Verdict :=
| NoRecords
| NoAddress
| WildcardMatch
| Forwarded (out : list AmassRequest).

Definition emitted (v : Verdict) : list AmassRequest :=
  match v with
  | Forwarded out => out
  | _ => []
  end.

(** The wildcard cache belongs to the worker that serves
    [dnsWildcardMatch]; it is passed in and handed back. *)
Definition performDNSRequest (req : AmassRequest)
           (wildcards : gmap string dnsWildcard)
  : M (Verdict * gmap string dnsWildcard) :=
  server ← NextNameserver;
  r ← dnsQuery (reqDomain req) (reqName req) server;
  match snd r with
  | Some _ => mret (NoRecords, wildcards)
  | None =>
      let answers := fst r in
      let ipstr := GetARecordData answers in
      if String.eqb ipstr "" then mret (NoAddress, wildcards)
      else
        '(match_, wildcards) ←
          matchesWildcard (reqName req) (reqDomain req) ipstr wildcards;
        if negb (bool_decide (reqTag req = SEARCH)) && match_
        then mret (WildcardMatch, wildcards)
        else mret (Forwarded (forwardAnswers req ipstr answers), wildcards)
  end.

(** The state of the loop of [processRequests]; [dispatched] lists the
    requests for which a resolution task was started. *)
Record PipeState := mkPipe {
  queue : list AmassRequest;
  nameFilter : gset string;
  active : bool;
  dispatched : list AmassRequest
}.

(** What the [select] of [processRequests] can receive. *)
Inductive Event :=
| Input (add : AmassRequest)
| Tick
| Check
| Quit.

Definition onInput (add : AmassRequest) (s : PipeState) : PipeState :=
  let add := mkRequest (trim252F (reqName add)) (reqDomain add)
                       (reqAddress add) (reqTag add) (reqSource add) in
  if negb (String.eqb (reqName add) "")
     && negb (bool_decide (reqName add ∈ nameFilter s))
  then mkPipe (queue s ++ [add]) (nameFilter s ∪ {[ reqName add ]})
              true (dispatched s)
  else s.

Definition onTick (s : PipeState) : PipeState :=
  match queue s with
  | [] => s
  | next :: rest =>
      mkPipe rest (nameFilter s) (active s)
             (if negb (String.eqb (reqDomain next) "")
              then dispatched s ++ [next] else dispatched s)
  end.

Definition onCheck (s : PipeState) : PipeState :=
  match queue s with
  | [] => mkPipe (queue s) (nameFilter s) false (dispatched s)
  | _ => s
  end.

(** The loop of [processRequests] over the events it receives; it ends
    at [Quit]. *)
Fixpoint processLoop (events : list Event) (s : PipeState) : PipeState :=
  match events with
  | [] => s
  | Input add :: rest => processLoop rest (onInput add s)
  | Tick :: rest => processLoop rest (onTick s)
  | Check :: rest => processLoop rest (onCheck s)
  | Quit :: _ => s
  end.

Definition processRequests (active0 : bool) (events : list Event) : PipeState :=
  processLoop events (mkPipe [] ∅ active0 []).

(** ** Vocabulary of the statements *)

(** The world after one more query. *)
Definition logged (w : World) (q : Query) : World :=
  mkWorld (cursor w) (qlog w ++ [q]) (usableServers w).

(** The contract of the DNS library that [recursiveCNAME] relies on: a
    CNAME lookup that reports success carries at least one answer. *)
Definition cnameAnswersNonEmpty (server : string) : Prop :=
  ∀ name, snd (ResolveDNS name server "CNAME") = None →
          fst (ResolveDNS name server "CNAME") ≠ [].

(** The answers of a terminal lookup that count: those of a lookup that
    succeeded. *)
Definition okAnswers (r : list DNSAnswer * option string) : list DNSAnswer :=
  match snd r with
  | None => fst r
  | Some _ => []
  end.

(** The CNAME queries for a list of names. *)
Definition cnameQueries (server : string) (chain : list string) : list Query :=
  map (λ nm, (nm, server, "CNAME")) chain.

(** No query of the chain follows one that failed. *)
Definition stopsAtFailure (server : string) (chain : list string) : Prop :=
  ∀ pre nm post, chain = pre ++ nm :: post → post ≠ [] →
                 snd (ResolveDNS nm server "CNAME") = None.

(** The query that probes a server at start-up. *)
Definition probeQuery (server : string) : Query := ("google.com", server, "A").

Definition probeSucceeds (server : string) : Prop :=
  snd (ResolveDNS "google.com" server "A") = None.

#[local] Instance probeSucceeds_dec server : Decision (probeSucceeds server).
Proof. unfold probeSucceeds. apply _. Defined.

(** A computation that returns from every world whose pool of servers
    is not empty, leaves the pool as it is, and returns a value that
    satisfies [Q]. *)
Definition returns {A : Type} (m : M A) (Q : A → Prop) : Prop :=
  ∀ w, usableServers w ≠ [] →
       ∃ a w', m w = Done a w' ∧ usableServers w' = usableServers w ∧ Q a.

(** A letter, digit or hyphen. *)
Definition isLDH (c : ascii) : Prop := c ∈ list_ascii_of_string ldhChars.

(** How many iterations of the character loop of [unlikelyName] can be
    skipped from counter [i] on, with [n] iterations left: the first and
    the last one. *)
Definition skipBudget (i n : nat) (l : Z) : nat :=
  (if (Z.of_nat i =? 0)%Z then 1 else 0)
  + (if ((Z.of_nat i <=? l - 1) && (l - 1 <? Z.of_nat (i + n)))%Z then 1 else 0).

(** The server a query was sent to. *)
Definition sentTo (server : string) (q : Query) : Prop := snd (fst q) = server.

(** Queries that all went to [server], at most [n] of them A queries.
    Every call of [dnsQuery] that returns issues exactly one A query, so
    [n] bounds the number of names looked up. *)
Definition probeLog (server : string) (n : nat) (added : list Query) : Prop :=
  Forall (sentTo server) added ∧ countQType "A" added ≤ n.

(** A computation that, however it ends, leaves the pool of servers as
    it is and appends to the log queries that satisfy [P]. *)
Definition logs {A : Type} (m : M A) (P : list Query → Prop) : Prop :=
  ∀ w, ∃ added,
    qlog (finalWorld (m w)) = qlog w ++ added
    ∧ usableServers (finalWorld (m w)) = usableServers w
    ∧ P added.

(** The cache holds a wildcard for [sub] whose answers contain [ip]. *)
Definition positiveFor (wildcards : gmap string dnsWildcard)
           (sub ip : string) : Prop :=
  ∃ e s, wildcards !! sub = Some e
         ∧ HasWildcard e = true ∧ Answers e = Some s ∧ ip ∈ s.

(** Every entry that reports a wildcard carries its answers, as every
    entry built by [matchesWildcard] does. *)
Definition cacheWellFormed (wildcards : gmap string dnsWildcard) : Prop :=
  ∀ sub e, wildcards !! sub = Some e →
           HasWildcard e = true → is_Some (Answers e).

Definition entryWellFormed (e : dnsWildcard) : Prop :=
  HasWildcard e = true → is_Some (Answers e).

(** The entry [matchesWildcard] builds from the result of
    [wildcardDetection]. *)
Definition entryOf (ss : option stringset.StringSet) : dnsWildcard :=
  match ss with
  | Some s => mkWildcard true (Some s)
  | None => mkWildcard false None
  end.

(** The request as [processRequests] stores it: with its name
    normalised. *)
Definition normalise (add : AmassRequest) : AmassRequest :=
  mkRequest (trim252F (reqName add)) (reqDomain add) (reqAddress add)
            (reqTag add) (reqSource add).

(** The requests [processRequests] receives before it quits, as it
    stores them. *)
Fixpoint inputsOf (events : list Event) : list AmassRequest :=
  match events with
  | [] => []
  | Input add :: rest => normalise add :: inputsOf rest
  | Quit :: _ => []
  | _ :: rest => inputsOf rest
  end.

(** [r] is the request at position [k] and no earlier request has its
    name. *)
Definition firstOccurrence (inputs : list AmassRequest) (k : nat)
           (r : AmassRequest) : Prop :=
  inputs !! k = Some r
  ∧ ∀ j r', j < k → inputs !! j = Some r' → reqName r' ≠ reqName r.

(** What the loop of [processRequests] maintains, [inputs] being the
    requests received so far. *)
Record pipeInvariant (inputs : list AmassRequest) (s : PipeState) : Prop := {
  inv_filter : ∀ n, n ∈ nameFilter s ↔
                    n ≠ "" ∧ ∃ r, r ∈ inputs ∧ reqName r = n;
  inv_admitted : ∀ r, r ∈ dispatched s ++ queue s →
                      reqName r ≠ "" ∧ ∃ k, firstOccurrence inputs k r;
  inv_complete : ∀ k r, firstOccurrence inputs k r →
                        reqName r ≠ "" → reqDomain r ≠ "" →
                        r ∈ dispatched s ++ queue s;
  inv_nodup : NoDup (map reqName (dispatched s ++ queue s));
  inv_domain : ∀ r, r ∈ dispatched s → reqDomain r ≠ ""
}.

(** What a run of [performDNSRequest] wrote to the output. *)
Definition emittedBy (o : Outcome (Verdict * gmap string dnsWildcard))
  : list AmassRequest :=
  match o with
  | Done (v, _) _ => emitted v
  | Panic _ => []
  end.

(** The names the specification counts for the pipeline: the distinct
    normalised names that are not empty and whose request carries a
    non-empty domain that is a suffix of the name. *)
Definition eligibleNames (adds : list AmassRequest) : gset string :=
  list_to_set
    (map reqName
         (filter (λ r, reqName r ≠ "" ∧ reqDomain r ≠ ""
                       ∧ HasSuffix (reqName r) (reqDomain r) = true)
                 (map normalise adds))).

(** [answers] is a chain of aliases that starts at [name]: each answer
    is the first record of a successful CNAME lookup, for [name] first
    and then for the target of the answer before it. *)
Fixpoint aliasChain (server name : string) (answers : list DNSAnswer) : Prop :=
  match answers with
  | [] => True
  | a :: rest =>
      (∃ more, ResolveDNS name server "CNAME" = (a :: more, None))
      ∧ aliasChain server (ansData a) rest
  end.

(** The name a chain of aliases ends at. *)
Definition chainEnd (name : string) (answers : list DNSAnswer) : string :=
  List.last (map ansData answers) name.

(** The loop of [processWildcardMatches]: what arrives on the channel
    of match requests, or the quit signal. *)
Inductive WildcardEvent :=
| MatchRequest (req : AmassRequest)
| Stop.

(** The loop of [processWildcardMatches] over the events it receives,
    with the cache it owns; it returns the answers it sent, in order. *)
Fixpoint wildcardWorker (events : list WildcardEvent)
         (wildcards : gmap string dnsWildcard)
  : M (list bool * gmap string dnsWildcard) :=
  match events with
  | [] => mret ([], wildcards)
  | Stop :: _ => mret ([], wildcards)
  | MatchRequest r :: rest =>
      '(b, wildcards) ←
        matchesWildcard (reqName r) (reqDomain r) (reqAddress r) wildcards;
      '(bs, wildcards) ← wildcardWorker rest wildcards;
      mret (b :: bs, wildcards)
  end.

Definition processWildcardMatches (events : list WildcardEvent)
  : M (list bool * gmap string dnsWildcard) :=
  wildcardWorker events ∅.

(** The match requests received before the quit signal. *)
Fixpoint requestsOf (events : list WildcardEvent) : list AmassRequest :=
  match events with
  | [] => []
  | Stop :: _ => []
  | MatchRequest r :: rest => r :: requestsOf rest
  end.

(** Queries that all went to [server]: at most [n] A queries and at most
    [12 * n] queries in all. *)
Definition budgetLog (server : string) (n : nat) (added : list Query) : Prop :=
  Forall (sentTo server) added
  ∧ countQType "A" added ≤ n
  ∧ List.length added ≤ 12 * n.

(** The three probes of [wildcardDetection], once the server is chosen. *)
Definition threeProbes (sub root server : string)
  : M (option stringset.StringSet) :=
  ss1 ← checkForWildcard sub root server;
  match ss1 with
  | None => mret None
  | Some s1 =>
      ss2 ← checkForWildcard sub root server;
      match ss2 with
      | None => mret None
      | Some s2 =>
          ss3 ← checkForWildcard sub root server;
          match ss3 with
          | None => mret None
          | Some s3 =>
              if negb (stringset.Empty s1)
                 && (stringset.Equal s1 s2 && stringset.Equal s2 s3)
              then mret (Some s1)
              else mret None
          end
      end
  end.

(** ** Properties of the query engine *)

Lemma bind_unfold {A B : Type} (m : M A) (k : A -> M B) (w : World) :
  (m ≫= k) w = match m w with
               | Done a w' => k a w'
               | Panic w' => Panic w'
               end.
Proof. reflexivity. Qed.

Ltac step_bind := rewrite bind_unfold; cbn [resolve randInt Nameservers panic].

Lemma cnameLoop_step n server answers name w :
  cnameLoop (S n) server answers name w =
  match snd (ResolveDNS name server "CNAME") with
  | Some _ => Done (answers, name) (logged w (name, server, "CNAME"))
  | None =>
      match fst (ResolveDNS name server "CNAME") with
      | [] => Panic (logged w (name, server, "CNAME"))
      | a0 :: _ => cnameLoop n server (answers ++ [a0]) (ansData a0)
                             (logged w (name, server, "CNAME"))
      end
  end.
Proof.
  cbn [cnameLoop]. step_bind.
  destruct (ResolveDNS name server "CNAME") as [[|a0 l] [e|]]; reflexivity.
Qed.

Lemma cnameLoop_safe n server :
  cnameAnswersNonEmpty server →
  ∀ answers name w, isPanic (cnameLoop n server answers name w) = false.
Proof.
  intros Hok. induction n as [|n IH]; intros answers name w.
  - reflexivity.
  - rewrite cnameLoop_step. specialize (Hok name).
    destruct (snd (ResolveDNS name server "CNAME")); [reflexivity|].
    destruct (fst (ResolveDNS name server "CNAME")); [by destruct Hok|].
    apply IH.
Qed.

(** C10: [recursiveCNAME] reads [a[0]] at every hop whose lookup reports
    success, so for a given resolver it runs without an index panic on
    every name exactly when every successful CNAME lookup carries at
    least one answer. *)
Theorem recursiveCNAME_index_safe_iff (server : string) :
  (∀ name w, isPanic (recursiveCNAME name server w) = false)
  ↔ cnameAnswersNonEmpty server.
Proof.
  split.
  - intros Hsafe name Hsucc Hempty.
    specialize (Hsafe name (mkWorld 0 [] [])).
    unfold recursiveCNAME in Hsafe. rewrite cnameLoop_step in Hsafe.
    rewrite Hsucc, Hempty in Hsafe. discriminate.
  - intros Hok name w. by apply cnameLoop_safe.
Qed.

(** A success with no answers at the first hop is a panic, after that
    single query. *)
Lemma recursiveCNAME_empty_success_panics name server w :
  ResolveDNS name server "CNAME" = ([], None) →
  recursiveCNAME name server w = Panic (logged w (name, server, "CNAME")).
Proof.
  intros H. unfold recursiveCNAME. rewrite cnameLoop_step, H. reflexivity.
Qed.

Lemma dnsQuery_unfold domain name server w :
  dnsQuery domain name server w =
  match recursiveCNAME name server w with
  | Panic w1 => Panic w1
  | Done (answers, final) w1 =>
      let a := ResolveDNS final server "A" in
      let aaaa := ResolveDNS final server "AAAA" in
      let w3 := logged (logged w1 (final, server, "A")) (final, server, "AAAA") in
      match snd a, snd aaaa with
      | Some _, Some _ => Done ([], Some noRecordsError) w3
      | _, _ => Done (answers ++ okAnswers a ++ okAnswers aaaa, None) w3
      end
  end.
Proof.
  unfold dnsQuery. step_bind.
  destruct (recursiveCNAME name server w) as [[answers final] w1|w1]; [|reflexivity].
  unfold okAnswers, resolve, logged, mbind, M_bind.
  destruct (ResolveDNS final server "A") as [la [ea|]];
    destruct (ResolveDNS final server "AAAA") as [lb [eb|]]; cbn;
    rewrite ?app_nil_r, <- ?app_assoc; reflexivity.
Qed.

(** C6: once the CNAME walk has returned, [dnsQuery] returns; it returns
    an error exactly when both the A and the AAAA lookup of the final name
    failed, and otherwise the CNAME answers followed by the answers of
    whichever of the two lookups succeeded.  A failure of one record type
    alone is not reported. *)
Theorem dnsQuery_error_iff domain name server w answers final w1 :
  recursiveCNAME name server w = Done (answers, final) w1 →
  ∃ r w2,
    dnsQuery domain name server w = Done r w2
    ∧ (is_Some (snd r) ↔
       is_Some (snd (ResolveDNS final server "A"))
       ∧ is_Some (snd (ResolveDNS final server "AAAA")))
    ∧ (is_Some (snd r) → r = ([], Some noRecordsError))
    ∧ (snd r = None →
       fst r = answers ++ okAnswers (ResolveDNS final server "A")
                       ++ okAnswers (ResolveDNS final server "AAAA")).
Proof.
  intros Hwalk. rewrite dnsQuery_unfold, Hwalk. cbn zeta.
  destruct (snd (ResolveDNS final server "A")) as [ea|] eqn:Ha;
    destruct (snd (ResolveDNS final server "AAAA")) as [eb|] eqn:Hb;
    eexists _, _; (split; [reflexivity|]); cbn;
    repeat split; intros; try done;
    repeat match goal with
           | H : is_Some None |- _ => by destruct H
           | H : _ ∧ _ |- _ => destruct H
           end; eauto.
Qed.

(** Under the library contract the CNAME walk always returns, and so
    does [dnsQuery]. *)
Lemma dnsQuery_total domain name server w :
  cnameAnswersNonEmpty server →
  ∃ r w2, dnsQuery domain name server w = Done r w2.
Proof.
  intros Hok. rewrite dnsQuery_unfold.
  pose proof (cnameLoop_safe 10 server Hok [] name w) as Hsafe.
  fold (recursiveCNAME name server w) in Hsafe.
  destruct (recursiveCNAME name server w) as [[answers final] w1|w1];
    [|discriminate].
  cbn zeta.
  destruct (snd (ResolveDNS final server "A"));
    destruct (snd (ResolveDNS final server "AAAA")); eauto.
Qed.

Lemma stopsAtFailure_single server nm : stopsAtFailure server [nm].
Proof.
  intros pre nm' post Heq Hpost.
  destruct pre as [|p [|p' pre]]; inversion Heq; subst; congruence.
Qed.

Lemma stopsAtFailure_cons server nm chain :
  snd (ResolveDNS nm server "CNAME") = None →
  stopsAtFailure server chain → stopsAtFailure server (nm :: chain).
Proof.
  intros Hnm Hchain pre nm' post Heq Hpost.
  destruct pre as [|p pre]; inversion Heq; subst.
  - done.
  - by eapply Hchain.
Qed.

Lemma cnameLoop_queries n server :
  ∀ answers name w,
  ∃ chain,
    qlog (finalWorld (cnameLoop n server answers name w))
    = qlog w ++ cnameQueries server chain
    ∧ List.length chain ≤ n
    ∧ stopsAtFailure server chain.
Proof.
  induction n as [|n IH]; intros answers name w.
  - exists []. cbn. rewrite app_nil_r. split_and!; [done|lia|].
    intros pre nm post Heq. by destruct pre.
  - rewrite cnameLoop_step.
    destruct (snd (ResolveDNS name server "CNAME")) as [e|] eqn:Hsnd.
    { exists [name]. cbn. split_and!; [done|lia|apply stopsAtFailure_single]. }
    destruct (fst (ResolveDNS name server "CNAME")) as [|a0 l].
    { exists [name]. cbn. split_and!; [done|lia|apply stopsAtFailure_single]. }
    destruct (IH (answers ++ [a0]) (ansData a0) (logged w (name, server, "CNAME")))
      as (chain & Hlog & Hlen & Hstop).
    exists (name :: chain). rewrite Hlog. cbn. rewrite <- app_assoc.
    split_and!; [done|lia|by apply stopsAtFailure_cons].
Qed.

(** C7: the queries one call of [dnsQuery] issues are the CNAME queries
    of a chain of at most 10 names, none of them following a CNAME query
    that failed, and then at most one A and one AAAA query, both for the
    same final name: at most 12 queries in all. *)
Theorem dnsQuery_query_bound domain name server w :
  ∃ chain tail,
    qlog (finalWorld (dnsQuery domain name server w))
    = qlog w ++ cnameQueries server chain ++ tail
    ∧ List.length chain ≤ 10
    ∧ stopsAtFailure server chain
    ∧ (tail = [] ∨ ∃ final, tail = [(final, server, "A"); (final, server, "AAAA")])
    ∧ countQType "CNAME" (cnameQueries server chain ++ tail) ≤ 10
    ∧ List.length (cnameQueries server chain ++ tail) ≤ 12.
Proof.
  destruct (cnameLoop_queries 10 server [] name w) as (chain & Hlog & Hlen & Hstop).
  fold (recursiveCNAME name server w) in Hlog.
  assert (Hcount : ∀ tail, countQType "CNAME" tail = 0 →
            countQType "CNAME" (cnameQueries server chain ++ tail) ≤ 10).
  { intros tail Htail. unfold countQType in *.
    rewrite filter_app, length_app, Htail.
    pose proof (length_filter (λ q, isQType "CNAME" q = true)
                              (cnameQueries server chain)) as Hle.
    unfold cnameQueries in *. rewrite length_map in Hle. lia. }
  rewrite dnsQuery_unfold.
  destruct (recursiveCNAME name server w) as [[answers final] w1|w1].
  - exists chain, [(final, server, "A"); (final, server, "AAAA")].
    split.
    { cbn zeta.
      destruct (snd (ResolveDNS final server "A"));
        destruct (snd (ResolveDNS final server "AAAA"));
        cbn in *; rewrite Hlog, <- !app_assoc; reflexivity. }
    split_and!; [done|done|by right; eexists|by apply Hcount|].
    unfold cnameQueries. rewrite length_app, length_map. cbn. lia.
  - exists chain, []. cbn in *. rewrite app_nil_r.
    split_and!; [done|done|done|by left| |].
    + specialize (Hcount [] eq_refl). by rewrite app_nil_r in Hcount.
    + unfold cnameQueries. rewrite length_map. lia.
Qed.

(** ** Properties of the resolver pool *)

Lemma testServers_spec servers :
  ∀ working w,
    testServers servers working w
    = Done (working ++ filter probeSucceeds servers)
           (mkWorld (cursor w) (qlog w ++ map probeQuery servers)
                    (usableServers w)).
Proof.
  induction servers as [|server rest IH]; intros working w.
  - cbn. rewrite !app_nil_r. by destruct w.
  - cbn [testServers]. step_bind. rewrite filter_cons.
    destruct (decide (probeSucceeds server)) as [Hp|Hp];
      unfold probeSucceeds in Hp.
    + rewrite Hp, IH. cbn. by rewrite <- !app_assoc.
    + destruct (snd (ResolveDNS "google.com" server "A")) as [e|]; [|done].
      rewrite IH. cbn. by rewrite <- app_assoc.
Qed.

Lemma init_spec w :
  init w = Done tt (mkWorld (cursor w)
                            (qlog w ++ map probeQuery knownPublicServers)
                            (filter probeSucceeds knownPublicServers)).
Proof.
  unfold init, testPublicServers. rewrite bind_unfold, testServers_spec.
  reflexivity.
Qed.

Lemma NextNameserver_spec w :
  usableServers w ≠ [] →
  ∃ server,
    NextNameserver w
    = Done server (mkWorld (S (cursor w)) (qlog w) (usableServers w))
    ∧ server ∈ usableServers w.
Proof.
  intros Hpool. unfold NextNameserver. do 2 step_bind. cbn.
  destruct (usableServers w) as [|s0 pool] eqn:Hservers; [done|].
  cbn [List.length].
  destruct (lookup_lt_is_Some_2 (s0 :: pool)
              (rnd (cursor w) mod S (List.length pool))) as [server Hsel].
  { cbn [List.length]. apply Nat.mod_upper_bound. lia. }
  change (Datatypes.length pool) with (List.length pool) in *.
  rewrite Hsel. exists server. split; [done|].
  by eapply list_elem_of_lookup_2.
Qed.

Lemma NextNameserver_empty_pool w :
  usableServers w = [] →
  NextNameserver w = Panic (mkWorld (S (cursor w)) (qlog w) (usableServers w)).
Proof.
  intros Hpool. unfold NextNameserver. do 2 step_bind. cbn.
  by rewrite Hpool.
Qed.

(** C9 (amended): start-up probes every server of the built-in list with
    one A query for google.com, in list order, and keeps exactly those
    whose probe succeeded; it always completes, whatever the number of
    servers kept.  When the pool it leaves is not empty, selecting a
    resolver returns one of its members. *)
Theorem init_keeps_probed_servers (w : World) :
  ∃ w',
    init w = Done tt w'
    ∧ qlog w' = qlog w ++ map probeQuery knownPublicServers
    ∧ usableServers w' = filter probeSucceeds knownPublicServers
    ∧ (∀ server, server ∈ usableServers w'
                 ↔ server ∈ knownPublicServers ∧ probeSucceeds server)
    ∧ (usableServers w' ≠ [] →
       ∃ server w'', NextNameserver w' = Done server w''
                     ∧ server ∈ usableServers w'
                     ∧ usableServers w'' = usableServers w').
Proof.
  eexists. split; [apply init_spec|]. cbn [qlog usableServers].
  split_and!; [done|done| |].
  - intros server. rewrite list_elem_of_filter. split; intros [? ?]; by split.
  - intros Hpool.
    destruct (NextNameserver_spec
                (mkWorld (cursor w)
                         (qlog w ++ map probeQuery knownPublicServers)
                         (filter probeSucceeds knownPublicServers)) Hpool)
      as (server & Hrun & Hin).
    exists server. eexists. split_and!; [exact Hrun|exact Hin|reflexivity].
Qed.

(** ** Computations that return *)

Lemma returns_ret {A : Type} (a : A) (Q : A → Prop) : Q a → returns (mret a) Q.
Proof. intros HQ w _. by exists a, w. Qed.

Lemma returns_bind {A B : Type} (m : M A) (k : A → M B)
      (Q : A → Prop) (R : B → Prop) :
  returns m Q → (∀ a, Q a → returns (k a) R) → returns (m ≫= k) R.
Proof.
  intros Hm Hk w Hw. destruct (Hm w Hw) as (a & w1 & Hrun & Hpool & HQ).
  destruct (Hk a HQ w1) as (b & w2 & Hrun2 & Hpool2 & HR); [by rewrite Hpool|].
  exists b, w2. rewrite bind_unfold, Hrun. split_and!; [done|congruence|done].
Qed.

Lemma returns_weaken {A : Type} (m : M A) (Q R : A → Prop) :
  returns m Q → (∀ a, Q a → R a) → returns m R.
Proof.
  intros Hm HQR w Hw. destruct (Hm w Hw) as (a & w1 & Hrun & Hpool & HQ).
  exists a, w1. auto.
Qed.

Lemma returns_NextNameserver : returns NextNameserver (λ _, True).
Proof.
  intros w Hw. destruct (NextNameserver_spec w Hw) as (server & Hrun & _).
  by eexists _, _.
Qed.

(** ** Properties of the probe names *)

Lemma string_app_cons (c : ascii) (a b : string) :
  String c a +:+ b = String c (a +:+ b).
Proof. reflexivity. Qed.

Lemma string_app_nil_l (b : string) : "" +:+ b = b.
Proof. reflexivity. Qed.

Lemma string_length_app (a b : string) :
  String.length (a +:+ b) = String.length a + String.length b.
Proof.
  induction a as [|c a IH]; [done|].
  rewrite string_app_cons. cbn [String.length]. by rewrite IH.
Qed.

Lemma string_app_assoc (a b c : string) : (a +:+ b) +:+ c = a +:+ (b +:+ c).
Proof.
  induction a as [|x a IH]; [done|].
  rewrite !string_app_cons. by rewrite IH.
Qed.

Lemma string_app_nil_r (a : string) : a +:+ "" = a.
Proof.
  induction a as [|x a IH]; [done|].
  rewrite string_app_cons. by rewrite IH.
Qed.

Ltac split_tests :=
  repeat match goal with
         | |- context [(?a =? ?b)%Z] => destruct (Z.eqb_spec a b)
         | |- context [(?a <=? ?b)%Z] => destruct (Z.leb_spec a b)
         | |- context [(?a <? ?b)%Z] => destruct (Z.ltb_spec a b)
         | |- context [(?a >? ?b)%Z] =>
             rewrite (Z.gtb_ltb a b); destruct (Z.ltb_spec b a)
         end.

Lemma skipBudget_skip i n l :
  (Z.of_nat i = 0 ∨ Z.of_nat i = l - 1)%Z →
  1 + skipBudget (S i) n l ≤ skipBudget i (S n) l.
Proof. intros H. unfold skipBudget. split_tests; cbn; lia. Qed.

Lemma skipBudget_next i n l : skipBudget (S i) n l ≤ skipBudget i (S n) l.
Proof. unfold skipBudget. split_tests; cbn; lia. Qed.

Lemma skipBudget_le i n l : skipBudget i n l ≤ 2.
Proof. unfold skipBudget. split_tests; cbn; lia. Qed.

Lemma shuffleLoop_spec (P : ascii → Prop) i :
  ∀ ldh w,
    i < List.length ldh → Forall P ldh →
    ∃ ldh',
      shuffleLoop i ldh w
      = Done ldh' (mkWorld (cursor w + i) (qlog w) (usableServers w))
      ∧ List.length ldh' = List.length ldh
      ∧ Forall P ldh'.
Proof.
  induction i as [|i IH]; intros ldh w Hlen HP.
  - exists ldh. cbn. rewrite Nat.add_0_r. by destruct w.
  - cbn [shuffleLoop]. step_bind.
    destruct (lookup_lt_is_Some_2 ldh (S i) Hlen) as [ci Hci].
    destruct (lookup_lt_is_Some_2 ldh (rnd (cursor w) mod S (S i))) as [cj Hcj].
    { pose proof (Nat.mod_upper_bound (rnd (cursor w)) (S (S i))). lia. }
    rewrite Hci, Hcj.
    destruct (IH (<[rnd (cursor w) mod S (S i) := ci]> (<[S i := cj]> ldh))
                 (mkWorld (S (cursor w)) (qlog w) (usableServers w)))
      as (ldh' & Hrun & Hlen' & HP').
    + by rewrite !length_insert; lia.
    + apply Forall_insert; [apply Forall_insert|]; [done| |].
      * by eapply Forall_lookup_1.
      * by eapply Forall_lookup_1.
    + exists ldh'. rewrite Hrun. cbn. rewrite !length_insert in Hlen'.
      split_and!; [|done|done]. do 2 f_equal. lia.
Qed.

Lemma labelLoop_spec (P : ascii → Prop) ldh ldhLen l :
  ldhLen = List.length ldh → 0 < ldhLen → Forall P ldh →
  ∀ n i newlabel w,
  ∃ added,
    labelLoop n i l ldh ldhLen newlabel w
    = Done (newlabel +:+ added)
           (mkWorld (cursor w + n) (qlog w) (usableServers w))
    ∧ Forall P (list_ascii_of_string added)
    ∧ String.length added ≤ n
    ∧ n ≤ String.length added + skipBudget i n l.
Proof.
  intros -> Hpos HP. induction n as [|n IH]; intros i newlabel w.
  - exists "". cbn. rewrite string_app_nil_r, Nat.add_0_r.
    split_and!; [by destruct w|constructor|lia|lia].
  - cbn [labelLoop]. step_bind.
    destruct (lookup_lt_is_Some_2 ldh (rnd (cursor w) mod List.length ldh))
      as [c Hc].
    { apply Nat.mod_upper_bound. lia. }
    rewrite Hc.
    destruct (((Z.of_nat i =? 0)%Z || (Z.of_nat i =? l - 1)%Z)
              && Ascii.eqb c "-") eqn:Hskip.
    + destruct (IH (S i) newlabel
                   (mkWorld (S (cursor w)) (qlog w) (usableServers w)))
        as (added & Hrun & Hadded & Hup & Hlow).
      exists added. rewrite Hrun. cbn.
      assert (Z.of_nat i = 0 ∨ Z.of_nat i = l - 1)%Z as Hends.
      { apply andb_prop in Hskip as [Hends _].
        apply orb_prop in Hends as [Hends|Hends];
          apply Z.eqb_eq in Hends; auto. }
      pose proof (skipBudget_skip i n l Hends).
      split_and!; [do 2 f_equal; lia|done|lia|lia].
    + destruct (IH (S i) (newlabel +:+ String c "")
                   (mkWorld (S (cursor w)) (qlog w) (usableServers w)))
        as (added & Hrun & Hadded & Hup & Hlow).
      exists (String c added).
      rewrite Hrun, string_app_assoc, string_app_cons, string_app_nil_l.
      cbn [cursor qlog usableServers list_ascii_of_string String.length].
      pose proof (skipBudget_next i n l).
      split_and!; [do 2 f_equal; lia| |lia|lia].
      constructor; [|done]. eapply Forall_lookup_1; [exact HP|exact Hc].
Qed.

Lemma unlikelyLabel_spec l w :
  ∃ label w',
    unlikelyLabel l w = Done label w'
    ∧ qlog w' = qlog w ∧ usableServers w' = usableServers w
    ∧ Forall isLDH (list_ascii_of_string label)
    ∧ String.length label ≤ Z.to_nat l
    ∧ Z.to_nat l ≤ String.length label + 2.
Proof.
  unfold unlikelyLabel, Shuffle. rewrite bind_unfold.
  destruct (shuffleLoop_spec isLDH
              (List.length (list_ascii_of_string ldhChars) - 1)
              (list_ascii_of_string ldhChars) w)
    as (ldh' & Hrun & Hlen & HP).
  { cbn. lia. }
  { by apply Forall_forall. }
  rewrite Hrun.
  destruct (labelLoop_spec isLDH ldh'
              (List.length (list_ascii_of_string ldhChars)) l
              (eq_sym Hlen) ltac:(cbn; lia) HP (Z.to_nat l) 0 ""
              (mkWorld
                 (cursor w + (List.length (list_ascii_of_string ldhChars) - 1))
                 (qlog w) (usableServers w)))
    as (added & Hrun' & Hadded & Hup & Hlow).
  rewrite Hrun', string_app_nil_l. eexists _, _. split; [reflexivity|].
  cbn [qlog usableServers].
  pose proof (skipBudget_le 0 (Z.to_nat l) l).
  split_and!; [done|done|done|lia|lia].
Qed.

Lemma unlikelyName_spec (sub : string) (w : World) :
  let room := (Z.of_nat maxNameLen - Z.of_nat (String.length sub))%Z in
  let L := if (room >? Z.of_nat maxLabelLen)%Z
           then (Z.of_nat maxLabelLen / 2)%Z else room in
  ∃ name w',
    unlikelyName sub w = Done name w'
    ∧ qlog w' = qlog w ∧ usableServers w' = usableServers w
    ∧ ((room < 1)%Z → name = "")
    ∧ (name = ""
       ∨ ∃ label,
           name = label +:+ "." +:+ sub
           ∧ label ≠ ""
           ∧ Forall isLDH (list_ascii_of_string label)
           ∧ (L - 2 ≤ Z.of_nat (String.length label) ≤ L)%Z
           ∧ String.length label ≤ maxLabelLen).
Proof.
  intros room L. unfold unlikelyName, labelLength. fold room.
  assert (Hroom : (room > Z.of_nat maxLabelLen)%Z → (room < 1)%Z → False).
  { unfold maxLabelLen. lia. }
  destruct (room >? Z.of_nat maxLabelLen)%Z eqn:Hbig.
  - apply Z.gtb_lt in Hbig.
    destruct (unlikelyLabel_spec (Z.of_nat maxLabelLen / 2) w)
      as (label & w' & Hrun & Hq & Hp & Hldh & Hup & Hlow).
    rewrite bind_unfold, Hrun.
    change (Z.of_nat maxLabelLen / 2)%Z with 31%Z in *.
    destruct (String.eqb_spec label "") as [->|Hne].
    + exists "", w'. split_and!; [done|done|done|done|by left].
    + eexists _, w'. split_and!; [done|done|done| |].
      * unfold maxLabelLen in *. lia.
      * right. exists label. unfold maxLabelLen in *. subst L.
        split_and!; [done|done|done|lia|lia|lia].
  - rewrite Z.gtb_ltb in Hbig. apply Z.ltb_ge in Hbig.
    destruct (room <? 1)%Z eqn:Hlt.
    + exists "", w. split_and!; [done|done|done|done|by left].
    + apply Z.ltb_ge in Hlt.
      destruct (unlikelyLabel_spec room w)
        as (label & w' & Hrun & Hq & Hp & Hldh & Hup & Hlow).
      rewrite bind_unfold, Hrun.
      destruct (String.eqb_spec label "") as [->|Hne].
      * exists "", w'. split_and!; [done|done|done|done|by left].
      * eexists _, w'. split_and!; [done|done|done|lia|].
        right. exists label. unfold maxLabelLen in *. subst L.
        split_and!; [done|done|done|lia|lia|lia].
Qed.

(** C8 (amended): [unlikelyName] always returns and issues no query.
    With [room = maxNameLen - len(sub)], it returns the empty string when
    [room < 1]; any other result is [label + "." + sub] for a non-empty
    label of letters, digits and hyphens whose length lies between
    [L - 2] and [L], where [L] is [maxLabelLen / 2] when
    [room > maxLabelLen] and [room] otherwise, so that the label has at
    most [maxLabelLen] characters. *)
Theorem unlikelyName_shape (sub : string) (w : World) :
  let room := (Z.of_nat maxNameLen - Z.of_nat (String.length sub))%Z in
  let L := if (room >? Z.of_nat maxLabelLen)%Z
           then (Z.of_nat maxLabelLen / 2)%Z else room in
  ∃ name w',
    unlikelyName sub w = Done name w'
    ∧ qlog w' = qlog w ∧ usableServers w' = usableServers w
    ∧ ((room < 1)%Z → name = "")
    ∧ (name = ""
       ∨ ∃ label,
           name = label +:+ "." +:+ sub
           ∧ label ≠ ""
           ∧ Forall isLDH (list_ascii_of_string label)
           ∧ (L - 2 ≤ Z.of_nat (String.length label) ≤ L)%Z
           ∧ String.length label ≤ maxLabelLen).
Proof. exact (unlikelyName_spec sub w). Qed.

Lemma returns_unlikelyName sub : returns (unlikelyName sub) (λ _, True).
Proof.
  intros w _. destruct (unlikelyName_spec sub w)
    as (name & w' & Hrun & _ & Hpool & _).
  by exists name, w'.
Qed.

(** ** The queries a computation issues *)

Lemma finalWorld_bind {A B : Type} (m : M A) (k : A → M B) w :
  finalWorld ((m ≫= k) w)
  = match m w with
    | Done a w' => finalWorld (k a w')
    | Panic w' => w'
    end.
Proof. rewrite bind_unfold. by destruct (m w). Qed.

Lemma countQType_app t (l1 l2 : list Query) :
  countQType t (l1 ++ l2) = countQType t l1 + countQType t l2.
Proof. unfold countQType. by rewrite filter_app, length_app. Qed.

Lemma probeLog_nil server n : probeLog server n [].
Proof. split; [constructor|cbn; lia]. Qed.

Lemma probeLog_app server n1 n2 l1 l2 :
  probeLog server n1 l1 → probeLog server n2 l2 →
  probeLog server (n1 + n2) (l1 ++ l2).
Proof.
  intros [H1 C1] [H2 C2]. split; [by apply Forall_app|].
  rewrite countQType_app. lia.
Qed.

Lemma probeLog_mono server n1 n2 l :
  n1 ≤ n2 → probeLog server n1 l → probeLog server n2 l.
Proof. intros Hle [H C]. split; [done|lia]. Qed.

Lemma logs_ret {A : Type} (a : A) server n : logs (mret a) (probeLog server n).
Proof.
  intros w. exists []. cbn. rewrite app_nil_r.
  split_and!; [done|done|apply probeLog_nil].
Qed.

Lemma logs_bind {A B : Type} (m : M A) (k : A → M B) server n1 n2 :
  logs m (probeLog server n1) → (∀ a, logs (k a) (probeLog server n2)) →
  logs (m ≫= k) (probeLog server (n1 + n2)).
Proof.
  intros Hm Hk w. destruct (Hm w) as (l1 & Hq1 & Hp1 & HP1).
  rewrite finalWorld_bind. destruct (m w) as [a w1|w1]; cbn in Hq1, Hp1.
  - destruct (Hk a w1) as (l2 & Hq2 & Hp2 & HP2).
    exists (l1 ++ l2). rewrite Hq2, Hq1, Hp2, Hp1, <- app_assoc.
    split_and!; [done|done|by apply probeLog_app].
  - exists l1. split_and!; [done|done|].
    eapply probeLog_mono; [|done]. lia.
Qed.

Lemma logs_weaken {A : Type} (m : M A) server n1 n2 :
  n1 ≤ n2 → logs m (probeLog server n1) → logs m (probeLog server n2).
Proof.
  intros Hle Hm w. destruct (Hm w) as (l & Hq & Hp & HP).
  exists l. split_and!; [done|done|by eapply probeLog_mono].
Qed.

Lemma logs_resolve name server qtype :
  logs (resolve name server qtype)
       (probeLog server (if String.eqb qtype "A" then 1 else 0)).
Proof.
  intros w. exists [(name, server, qtype)]. cbn.
  split_and!; [done|done|]. split; [by repeat constructor|].
  unfold countQType. rewrite filter_cons, filter_nil.
  unfold isQType. cbn [snd]. destruct (String.eqb qtype "A") eqn:Hq.
  - by rewrite decide_True.
  - by rewrite decide_False.
Qed.

Lemma logs_panic {A : Type} server n : logs (@panic A) (probeLog server n).
Proof.
  intros w. exists []. cbn. rewrite app_nil_r.
  split_and!; [done|done|apply probeLog_nil].
Qed.

Lemma logs_cnameLoop n server :
  ∀ answers name, logs (cnameLoop n server answers name) (probeLog server 0).
Proof.
  induction n as [|n IH]; intros answers name.
  - apply logs_ret.
  - cbn [cnameLoop].
    apply (logs_bind _ _ server 0 0); [apply (logs_resolve name server "CNAME")|].
    intros r. destruct (snd r); [apply logs_ret|].
    destruct (fst r); [apply logs_panic|apply IH].
Qed.

Lemma logs_dnsQuery domain name server :
  logs (dnsQuery domain name server) (probeLog server 1).
Proof.
  unfold dnsQuery.
  apply (logs_bind _ _ server 0 1); [apply logs_cnameLoop|].
  intros [answers final].
  apply (logs_bind _ _ server 1 0); [apply (logs_resolve final server "A")|].
  intros a. destruct (snd a).
  - apply (logs_bind _ _ server 0 0);
      [apply (logs_resolve final server "AAAA")|].
    intros aaaa. destruct (snd aaaa); apply logs_ret.
  - apply (logs_bind _ _ server 0 0);
      [apply (logs_resolve final server "AAAA")|].
    intros aaaa. destruct (snd aaaa); apply logs_ret.
Qed.

Lemma logs_unlikelyName sub server : logs (unlikelyName sub) (probeLog server 0).
Proof.
  intros w. destruct (unlikelyName_spec sub w)
    as (name & w' & Hrun & Hq & Hp & _).
  exists []. rewrite Hrun. cbn. rewrite app_nil_r.
  split_and!; [done|done|apply probeLog_nil].
Qed.

Lemma logs_checkForWildcard sub root server :
  logs (checkForWildcard sub root server) (probeLog server 1).
Proof.
  unfold checkForWildcard.
  apply (logs_bind _ _ server 0 1); [apply logs_unlikelyName|].
  intros name. destruct (negb (String.eqb name "")); [|apply logs_ret].
  apply (logs_bind _ _ server 1 0); [apply logs_dnsQuery|].
  intros r. destruct (snd r); apply logs_ret.
Qed.

Lemma returns_dnsQuery domain name server :
  cnameAnswersNonEmpty server →
  returns (dnsQuery domain name server) (λ _, True).
Proof.
  intros Hok w _. destruct (dnsQuery_total domain name server w Hok)
    as (r & w2 & Hrun).
  destruct (logs_dnsQuery domain name server w) as (l & _ & Hp & _).
  rewrite Hrun in Hp. by exists r, w2.
Qed.

Lemma returns_checkForWildcard sub root server :
  cnameAnswersNonEmpty server →
  returns (checkForWildcard sub root server) (λ _, True).
Proof.
  intros Hok. unfold checkForWildcard.
  eapply returns_bind; [apply returns_unlikelyName|].
  intros name _. destruct (negb (String.eqb name "")); [|by apply returns_ret].
  eapply returns_bind; [by apply returns_dnsQuery|].
  intros r _. destruct (snd r); by apply returns_ret.
Qed.

Lemma returns_wildcardDetection sub root :
  (∀ server, cnameAnswersNonEmpty server) →
  returns (wildcardDetection sub root) (λ _, True).
Proof.
  intros Hok. unfold wildcardDetection.
  eapply returns_bind; [apply returns_NextNameserver|].
  intros server _.
  eapply returns_bind; [by apply returns_checkForWildcard|].
  intros [s1|] _; [|by apply returns_ret].
  eapply returns_bind; [by apply returns_checkForWildcard|].
  intros [s2|] _; [|by apply returns_ret].
  eapply returns_bind; [by apply returns_checkForWildcard|].
  intros [s3|] _; [|by apply returns_ret].
  destruct (negb (stringset.Empty s1)
            && (stringset.Equal s1 s2 && stringset.Equal s2 s3));
    by apply returns_ret.
Qed.

(** ** Properties of the wildcard detector *)

Lemma NextNameserver_inv w server w0 :
  NextNameserver w = Done server w0 →
  w0 = mkWorld (S (cursor w)) (qlog w) (usableServers w)
  ∧ server ∈ usableServers w.
Proof.
  intros Hrun. destruct (usableServers w) as [|s0 pool] eqn:Hpool.
  - rewrite NextNameserver_empty_pool in Hrun by done. discriminate.
  - destruct (NextNameserver_spec w) as (server' & Hrun' & Hin).
    { by rewrite Hpool. }
    rewrite Hrun' in Hrun. injection Hrun as <- <-.
    by rewrite <- Hpool.
Qed.

Lemma wildcardDetection_unfold sub root w server w0 ss1 w1 ss2 w2 ss3 w3 :
  NextNameserver w = Done server w0 →
  checkForWildcard sub root server w0 = Done ss1 w1 →
  checkForWildcard sub root server w1 = Done ss2 w2 →
  checkForWildcard sub root server w2 = Done ss3 w3 →
  wildcardDetection sub root w =
  match ss1, ss2, ss3 with
  | None, _, _ => Done None w1
  | Some _, None, _ => Done None w2
  | Some _, Some _, None => Done None w3
  | Some s1, Some s2, Some s3 =>
      Done (if negb (stringset.Empty s1)
               && (stringset.Equal s1 s2 && stringset.Equal s2 s3)
            then Some s1 else None) w3
  end.
Proof.
  intros Hnext H1 H2 H3. unfold wildcardDetection.
  rewrite bind_unfold, Hnext, bind_unfold, H1.
  destruct ss1 as [s1|]; [|done].
  rewrite bind_unfold, H2. destruct ss2 as [s2|]; [|done].
  rewrite bind_unfold, H3. destruct ss3 as [s3|]; [|done].
  by destruct (negb (stringset.Empty s1)
               && (stringset.Equal s1 s2 && stringset.Equal s2 s3)).
Qed.

Lemma lookupOrDetect_inv sub root wildcards w e wildcards' w' :
  lookupOrDetect sub root wildcards w = Done (e, wildcards') w' →
  wildcards' !! sub = Some e
  ∧ (∀ k x, wildcards !! k = Some x → wildcards' !! k = Some x)
  ∧ (∀ k x, wildcards' !! k = Some x → k ≠ sub → wildcards !! k = Some x)
  ∧ (cacheWellFormed wildcards → cacheWellFormed wildcards').
Proof.
  unfold lookupOrDetect. destruct (wildcards !! sub) as [x|] eqn:Hsub.
  - intros [= <- <- <-]. split_and!; auto.
  - rewrite bind_unfold.
    destruct (wildcardDetection sub root w) as [ss w1|w1]; [|done].
    intros [= <- <- <-]. split_and!.
    + apply lookup_insert_eq.
    + intros k x Hk. rewrite lookup_insert_ne; [done|congruence].
    + intros k x Hk Hne. by rewrite lookup_insert_ne in Hk.
    + intros Hwf k x Hk Hx. destruct (decide (k = sub)) as [->|Hne].
      * rewrite lookup_insert_eq in Hk. injection Hk as <-.
        destruct ss; [by eexists|done].
      * rewrite lookup_insert_ne in Hk by done. by eapply Hwf.
Qed.

Lemma entryMatches_inv e ip hit w w' :
  entryMatches e ip w = Done hit w' →
  w' = w
  ∧ (hit = true ↔ ∃ s, HasWildcard e = true ∧ Answers e = Some s ∧ ip ∈ s).
Proof.
  unfold entryMatches. destruct (HasWildcard e).
  - destruct (Answers e) as [s|]; [|done].
    intros [= <- <-]. split; [done|]. unfold stringset.Contains.
    rewrite bool_decide_eq_true. split.
    + intros Hin. by exists s.
    + by intros (s' & _ & [= <-] & Hin).
  - intros [= <- <-]. split; [done|]. split; [done|].
    by intros (s & Hf & _).
Qed.

Lemma wildcardLoop_step i labels root ip wildcards answer w :
  wildcardLoop (S i) labels root ip wildcards answer w =
  match lookupOrDetect (suffixAt labels (S i)) root wildcards w with
  | Panic w1 => Panic w1
  | Done (e, wildcards1) w1 =>
      match entryMatches e ip w1 with
      | Panic w2 => Panic w2
      | Done hit w2 =>
          wildcardLoop i labels root ip wildcards1
                       (if hit then true else answer) w2
      end
  end.
Proof.
  cbn [wildcardLoop]. rewrite bind_unfold.
  destruct (lookupOrDetect (suffixAt labels (S i)) root wildcards w)
    as [[e wildcards1] w1|w1]; [|done].
  by rewrite bind_unfold.
Qed.

Lemma wildcardLoop_keeps labels root ip i :
  ∀ wildcards answer w b wildcards' w',
    wildcardLoop i labels root ip wildcards answer w = Done (b, wildcards') w' →
    ∀ k x, wildcards !! k = Some x → wildcards' !! k = Some x.
Proof.
  induction i as [|i IH]; intros wildcards answer w b wildcards' w' Hrun k x Hk.
  - cbn in Hrun. by injection Hrun as <- <- <-.
  - rewrite wildcardLoop_step in Hrun.
    destruct (lookupOrDetect (suffixAt labels (S i)) root wildcards w)
      as [[e wildcards1] w1|w1] eqn:Hlook; [|done].
    destruct (entryMatches e ip w1) as [hit w2|w2]; [|done].
    apply lookupOrDetect_inv in Hlook as (_ & Hkeep & _).
    eapply IH; [done|]. by apply Hkeep.
Qed.

Lemma wildcardLoop_spec labels root ip i :
  ∀ wildcards answer w b wildcards' w',
    wildcardLoop i labels root ip wildcards answer w = Done (b, wildcards') w' →
    (b = true ↔
     answer = true
     ∨ ∃ j, 1 ≤ j ≤ i ∧ positiveFor wildcards' (suffixAt labels j) ip).
Proof.
  induction i as [|i IH]; intros wildcards answer w b wildcards' w' Hrun.
  - cbn in Hrun. injection Hrun as <- <- <-. split; [by left|].
    intros [H|(j & Hj & _)]; [done|lia].
  - rewrite wildcardLoop_step in Hrun.
    destruct (lookupOrDetect (suffixAt labels (S i)) root wildcards w)
      as [[e wildcards1] w1|w1] eqn:Hlook; [|done].
    destruct (entryMatches e ip w1) as [hit w2|w2] eqn:Hhit; [|done].
    apply lookupOrDetect_inv in Hlook as (Hsub & _).
    apply entryMatches_inv in Hhit as (_ & Hhit).
    pose proof (wildcardLoop_keeps _ _ _ _ _ _ _ _ _ _ Hrun _ _ Hsub) as Hsub'.
    rewrite (IH _ _ _ _ _ _ Hrun). split.
    + intros [Hans|(j & Hj & Hpos)].
      * destruct hit; [|by left]. right. exists (S i). split; [lia|].
        destruct Hhit as [Hhit _].
        destruct (Hhit eq_refl) as (s & H1 & H2 & H3). by exists e, s.
      * right. exists j. split; [lia|done].
    + intros [Hans|(j & Hj & Hpos)].
      * left. by destruct hit.
      * destruct (decide (j = S i)) as [->|Hne].
        -- left. destruct Hpos as (e' & s & He' & H1 & H2 & H3).
           rewrite Hsub' in He'. injection He' as <-.
           destruct Hhit as [_ Hhit]. rewrite Hhit; [done|by exists s].
        -- right. exists j. split; [lia|done].
Qed.

Lemma returns_lookupOrDetect sub root wildcards :
  (∀ server, cnameAnswersNonEmpty server) →
  cacheWellFormed wildcards →
  returns (lookupOrDetect sub root wildcards)
          (λ r, entryWellFormed (fst r) ∧ cacheWellFormed (snd r)).
Proof.
  intros Hok Hwf. unfold lookupOrDetect.
  destruct (wildcards !! sub) as [x|] eqn:Hsub.
  - apply returns_ret. split; [|done]. intros Hx. by eapply Hwf.
  - eapply returns_bind; [by apply returns_wildcardDetection|].
    intros ss _. apply returns_ret. cbn. split.
    + destruct ss; [by eexists|done].
    + intros k x Hk Hx. destruct (decide (k = sub)) as [->|Hne].
      * rewrite lookup_insert_eq in Hk. injection Hk as <-.
        destruct ss; [by eexists|done].
      * rewrite lookup_insert_ne in Hk by done. by eapply Hwf.
Qed.

Lemma returns_entryMatches e ip :
  entryWellFormed e → returns (entryMatches e ip) (λ _, True).
Proof.
  intros Hwf. unfold entryMatches. destruct (HasWildcard e) eqn:Hhas.
  - destruct (Hwf Hhas) as [s ->]. by apply returns_ret.
  - by apply returns_ret.
Qed.

Lemma returns_wildcardLoop labels root ip i :
  (∀ server, cnameAnswersNonEmpty server) →
  ∀ wildcards answer,
    cacheWellFormed wildcards →
    returns (wildcardLoop i labels root ip wildcards answer)
            (λ r, cacheWellFormed (snd r)).
Proof.
  intros Hok. induction i as [|i IH]; intros wildcards answer Hwf.
  - by apply returns_ret.
  - cbn [wildcardLoop].
    eapply returns_bind; [by apply returns_lookupOrDetect|].
    intros [e wildcards1] [He Hwf1]. cbn in He, Hwf1.
    eapply returns_bind; [by apply returns_entryMatches|].
    intros hit _. by apply IH.
Qed.

(** *** The suffixes that are examined *)

Lemma Split_nonempty s sep : Split s sep ≠ [].
Proof.
  destruct s as [|c s]; [done|]. cbn [Split].
  destruct (Ascii.eqb c sep); [done|]. by destruct (Split s sep).
Qed.

Lemma Split_app a b :
  Split (a +:+ "." +:+ b) "." = Split a "." ++ Split b ".".
Proof.
  induction a as [|c a IH].
  - rewrite string_app_nil_l, string_app_cons, string_app_nil_l. done.
  - rewrite string_app_cons. cbn [Split]. rewrite IH.
    destruct (Ascii.eqb c "."); [done|].
    pose proof (Split_nonempty a ".") as Hne.
    by destruct (Split a ".").
Qed.

Lemma Join_Split s : Join (Split s ".") "." = s.
Proof.
  induction s as [|c s IH]; [done|]. cbn [Split].
  pose proof (Split_nonempty s ".") as Hne.
  destruct (Ascii.eqb_spec c ".") as [->|Hc].
  - destruct (Split s ".") as [|piece pieces] eqn:Hs; [done|].
    cbn [Join]. cbn [Join] in IH. rewrite IH. done.
  - destruct (Split s ".") as [|piece pieces] eqn:Hs; [done|].
    destruct pieces as [|p pieces].
    + cbn [Join] in *. by rewrite IH.
    + cbn [Join] in *. by rewrite string_app_cons, IH.
Qed.

(** For a name under the apex, the first suffix the loop of
    [matchesWildcard] examines is the apex itself. *)
Lemma apex_is_examined prefix root :
  let labels := Split (prefix +:+ "." +:+ root) "." in
  let first := List.length labels - List.length (Split root ".") in
  1 ≤ first ∧ suffixAt labels first = root.
Proof.
  cbn zeta. rewrite Split_app, length_app.
  replace (List.length (Split prefix ".") + List.length (Split root ".")
           - List.length (Split root "."))
    with (List.length (Split prefix ".")) by lia.
  split.
  - pose proof (Split_nonempty prefix ".").
    destruct (Split prefix "."); [done|cbn; lia].
  - unfold suffixAt. rewrite drop_app_length. apply Join_Split.
Qed.

Lemma matchesWildcard_spec name root ip wildcards w :
  (∀ server, cnameAnswersNonEmpty server) →
  usableServers w ≠ [] →
  cacheWellFormed wildcards →
  ∃ b wildcards' w',
    matchesWildcard name root ip wildcards w = Done (b, wildcards') w'
    ∧ cacheWellFormed wildcards'
    ∧ usableServers w' = usableServers w
    ∧ (b = true ↔
       ∃ j, 1 ≤ j ≤ List.length (Split name ".") - List.length (Split root ".")
            ∧ positiveFor wildcards' (suffixAt (Split name ".") j) ip).
Proof.
  intros Hok Hpool Hwf. unfold matchesWildcard.
  destruct (returns_wildcardLoop (Split name ".") root ip
              (List.length (Split name ".") - List.length (Split root "."))
              Hok wildcards false Hwf w Hpool)
    as ([b wildcards'] & w' & Hrun & Hpool' & Hwf').
  exists b, wildcards', w'. split_and!; [done|done|done|].
  rewrite (wildcardLoop_spec _ _ _ _ _ _ _ _ _ _ Hrun). split.
  - by intros [?|?].
  - by right.
Qed.

(** C2 (amended): the decision of [matchesWildcard] is true exactly when
    one of the suffixes [labels[j:]] of the name, for [j] from 1 (the
    immediate parent of the name) up to [len(labels) - base] (as many
    labels as the apex has), has an entry in the cache the call leaves
    that reports a wildcard whose answers contain the address.  For a
    name under the apex the last of these suffixes is the apex itself,
    which is therefore examined too; the name itself is not. *)
Theorem matchesWildcard_decision name root ip wildcards w :
  (∀ server, cnameAnswersNonEmpty server) →
  usableServers w ≠ [] →
  cacheWellFormed wildcards →
  ∃ b wildcards' w',
    matchesWildcard name root ip wildcards w = Done (b, wildcards') w'
    ∧ (b = true ↔
       ∃ j, 1 ≤ j ≤ List.length (Split name ".") - List.length (Split root ".")
            ∧ positiveFor wildcards' (suffixAt (Split name ".") j) ip)
    ∧ (∀ prefix, name = prefix +:+ "." +:+ root →
         1 ≤ List.length (Split name ".") - List.length (Split root ".")
         ∧ suffixAt (Split name ".")
                    (List.length (Split name ".") - List.length (Split root "."))
           = root).
Proof.
  intros Hok Hpool Hwf.
  destruct (matchesWildcard_spec name root ip wildcards w Hok Hpool Hwf)
    as (b & wildcards' & w' & Hrun & _ & _ & Hiff).
  exists b, wildcards', w'. split_and!; [done|done|].
  intros prefix ->. apply apex_is_examined.
Qed.

Lemma matchesWildcard_keeps name root ip wildcards w b wildcards' w' :
  matchesWildcard name root ip wildcards w = Done (b, wildcards') w' →
  ∀ k x, wildcards !! k = Some x → wildcards' !! k = Some x.
Proof. unfold matchesWildcard. apply wildcardLoop_keeps. Qed.

(** C3 (amended): for a suffix with no entry in the cache, detection
    picks one resolver and runs up to three probes, all through it,
    stopping after the first probe that does not resolve.  The entry
    reports a wildcard exactly when the three probes resolved to the same
    non-empty set, which then is its answer set; otherwise it reports
    none.  The entry is stored under the suffix, a later lookup returns
    it without a query, and no later call of [matchesWildcard] changes
    it. *)
Theorem wildcardDetection_protocol sub root wildcards w server w0
        ss1 w1 ss2 w2 ss3 w3 :
  wildcards !! sub = None →
  NextNameserver w = Done server w0 →
  checkForWildcard sub root server w0 = Done ss1 w1 →
  checkForWildcard sub root server w1 = Done ss2 w2 →
  checkForWildcard sub root server w2 = Done ss3 w3 →
  ∃ entry w' added,
    lookupOrDetect sub root wildcards w
    = Done (entry, <[sub := entry]> wildcards) w'
    ∧ server ∈ usableServers w
    ∧ w' = match ss1, ss2 with
           | None, _ => w1
           | Some _, None => w2
           | Some _, Some _ => w3
           end
    ∧ qlog w' = qlog w ++ added
    ∧ Forall (sentTo server) added
    ∧ countQType "A" added ≤ 3
    ∧ (∀ s, entry = mkWildcard true (Some s)
            ↔ ss1 = Some s ∧ ss2 = Some s ∧ ss3 = Some s ∧ s ≠ ∅)
    ∧ (HasWildcard entry = false → entry = mkWildcard false None)
    ∧ (ss1 = None ∨ ss2 = None ∨ ss3 = None → entry = mkWildcard false None)
    ∧ (∀ u, lookupOrDetect sub root (<[sub := entry]> wildcards) u
            = Done (entry, <[sub := entry]> wildcards) u)
    ∧ (∀ name' root' ip' cache u b cache' u',
         cache !! sub = Some entry →
         matchesWildcard name' root' ip' cache u = Done (b, cache') u' →
         cache' !! sub = Some entry).
Proof.
  intros Hnew Hnext H1 H2 H3.
  pose proof (wildcardDetection_unfold sub root w server w0
                ss1 w1 ss2 w2 ss3 w3 Hnext H1 H2 H3) as Hdet.
  destruct (NextNameserver_inv w server w0 Hnext) as [Hw0 Hin].
  destruct (logs_checkForWildcard sub root server w0) as (l1 & Hq1 & _ & Hl1).
  destruct (logs_checkForWildcard sub root server w1) as (l2 & Hq2 & _ & Hl2).
  destruct (logs_checkForWildcard sub root server w2) as (l3 & Hq3 & _ & Hl3).
  rewrite H1 in Hq1. rewrite H2 in Hq2. rewrite H3 in Hq3. cbn in Hq1, Hq2, Hq3.
  assert (Hq0 : qlog w0 = qlog w) by (by subst w0).
  pose proof (probeLog_app _ _ _ _ _ Hl1 Hl2) as Hl12.
  pose proof (probeLog_app _ _ _ _ _ Hl12 Hl3) as Hl123.
  assert (Hlook : ∀ u, lookupOrDetect sub root (<[sub := entryOf
                    (match ss1, ss2, ss3 with
                     | Some s1, Some s2, Some s3 =>
                         if negb (stringset.Empty s1)
                            && (stringset.Equal s1 s2 && stringset.Equal s2 s3)
                         then Some s1 else None
                     | _, _, _ => None
                     end)]> wildcards) u
                  = Done (entryOf
                    (match ss1, ss2, ss3 with
                     | Some s1, Some s2, Some s3 =>
                         if negb (stringset.Empty s1)
                            && (stringset.Equal s1 s2 && stringset.Equal s2 s3)
                         then Some s1 else None
                     | _, _, _ => None
                     end), <[sub := entryOf
                    (match ss1, ss2, ss3 with
                     | Some s1, Some s2, Some s3 =>
                         if negb (stringset.Empty s1)
                            && (stringset.Equal s1 s2 && stringset.Equal s2 s3)
                         then Some s1 else None
                     | _, _, _ => None
                     end)]> wildcards) u).
  { intros u. unfold lookupOrDetect. by rewrite lookup_insert_eq. }
  assert (Hkeep : ∀ entry name' root' ip'
                    (cache : gmap string dnsWildcard) u b cache' u',
             cache !! sub = Some entry →
             matchesWildcard name' root' ip' cache u = Done (b, cache') u' →
             cache' !! sub = Some entry).
  { intros entry name' root' ip' cache u b cache' u' Hc Hrun.
    by eapply matchesWildcard_keeps. }
  unfold lookupOrDetect at 1. rewrite Hnew, bind_unfold, Hdet.
  destruct ss1 as [s1|].
  2:{ exists (mkWildcard false None), w1, l1.
      split_and!; [done|done|done|congruence|apply Hl1| |
                   |done|done|apply Hlook|apply Hkeep].
      - destruct Hl1. lia.
      - intros s. split; [done|]. by intros (? & _). }
  destruct ss2 as [s2|].
  2:{ exists (mkWildcard false None), w2, (l1 ++ l2).
      split_and!; [done|done|done| |apply Hl12| |
                   |done|done|apply Hlook|apply Hkeep].
      - rewrite Hq2, Hq1, Hq0. by rewrite <- app_assoc.
      - destruct Hl12. lia.
      - intros s. split; [done|]. by intros (_ & ? & _). }
  destruct ss3 as [s3|].
  2:{ exists (mkWildcard false None), w3, ((l1 ++ l2) ++ l3).
      split_and!; [done|done|done| |apply Hl123| |
                   |done|done|apply Hlook|apply Hkeep].
      - rewrite Hq3, Hq2, Hq1, Hq0. by rewrite <- !app_assoc.
      - destruct Hl123. lia.
      - intros s. split; [done|]. by intros (_ & _ & ? & _). }
  unfold stringset.Empty, stringset.Equal in *.
  destruct (decide (s1 = ∅)) as [He|He];
    destruct (decide (s1 = s2)) as [H12|H12];
    destruct (decide (s2 = s3)) as [H23|H23];
    rewrite ?(bool_decide_eq_true_2 _ He), ?(bool_decide_eq_false_2 _ He),
      ?(bool_decide_eq_true_2 _ H12), ?(bool_decide_eq_false_2 _ H12),
      ?(bool_decide_eq_true_2 _ H23), ?(bool_decide_eq_false_2 _ H23) in *;
    cbn [negb andb] in *; cbn [entryOf] in *;
    eexists _, w3, ((l1 ++ l2) ++ l3);
    (split_and!;
     [reflexivity|done|done
     |rewrite Hq3, Hq2, Hq1, Hq0; by rewrite <- !app_assoc
     |apply Hl123
     |destruct Hl123; lia
     |
     |done
     |by intros [?|[?|?]]
     |apply Hlook
     |apply Hkeep]);
    intros s; split;
    try (intros [= <-]; subst; done);
    try (intros (E1 & E2 & E3 & Hs); simplify_eq; done);
    try done.
Qed.

(** ** Properties of the request pipeline *)

Lemma forwardAnswers_shape req ipstr answers r :
  r ∈ forwardAnswers req ipstr answers →
  reqAddress r = ipstr
  ∧ reqDomain r = reqDomain req
  ∧ ∃ record, record ∈ answers
              ∧ reqName r = trim252F (ansName record)
              ∧ HasSuffix (ansName record) (reqDomain req) = true.
Proof.
  induction answers as [|record rest IH]; cbn [forwardAnswers].
  - by intros ?%elem_of_nil.
  - destruct (HasSuffix (ansName record) (reqDomain req)) eqn:Hsuf; cbn [negb].
    + destruct (String.eqb (ansName record) (reqName req));
        (intros [->|Hin]%elem_of_cons;
         [cbn; split_and!; [done|done|]; exists record;
          split_and!; [apply list_elem_of_here|done|done]
         |destruct (IH Hin) as (Ha & Hd & record' & Hin' & Hn & Hs);
          split_and!; [done|done|]; exists record';
          split_and!; [by apply list_elem_of_further|done|done]]).
    + intros Hin. destruct (IH Hin) as (Ha & Hd & record' & Hin' & Hn & Hs).
      split_and!; [done|done|]. exists record'.
      split_and!; [by apply list_elem_of_further|done|done].
Qed.

Lemma forwardAnswers_own_name req ipstr answers record :
  record ∈ answers →
  ansName record = reqName req →
  HasSuffix (reqName req) (reqDomain req) = true →
  mkRequest (trim252F (reqName req)) (reqDomain req) ipstr
            (reqTag req) (reqSource req)
  ∈ forwardAnswers req ipstr answers.
Proof.
  intros Hin Hname Hsuf. induction answers as [|a rest IH].
  - by apply elem_of_nil in Hin.
  - cbn [forwardAnswers]. apply elem_of_cons in Hin as [<-|Hin].
    + rewrite Hname, Hsuf, String.eqb_refl. cbn [negb]. unfold sendOut. cbn.
      apply list_elem_of_here.
    + destruct (negb (HasSuffix (ansName a) (reqDomain req))); [by apply IH|].
      destruct (String.eqb (ansName a) (reqName req));
        apply list_elem_of_further; by apply IH.
Qed.

Lemma performDNSRequest_unfold req wildcards w server w1 answers w2 b wildcards' w3 :
  NextNameserver w = Done server w1 →
  dnsQuery (reqDomain req) (reqName req) server w1 = Done (answers, None) w2 →
  GetARecordData answers ≠ "" →
  matchesWildcard (reqName req) (reqDomain req) (GetARecordData answers)
                  wildcards w2
  = Done (b, wildcards') w3 →
  performDNSRequest req wildcards w
  = Done (if negb (bool_decide (reqTag req = SEARCH)) && b
          then WildcardMatch
          else Forwarded (forwardAnswers req (GetARecordData answers) answers),
          wildcards') w3.
Proof.
  intros Hnext Hquery Hip Hmatch. unfold performDNSRequest.
  rewrite bind_unfold, Hnext, bind_unfold, Hquery. cbn [fst snd].
  destruct (String.eqb_spec (GetARecordData answers) "") as [|_]; [done|].
  rewrite bind_unfold, Hmatch.
  by destruct (negb (bool_decide (reqTag req = SEARCH)) && b).
Qed.

(** C1: when the lookup of a request succeeds, yields an address, and
    the wildcard detector answers [b] for it, the run ends at the
    wildcard return, forwarding nothing, exactly when [b] is true and the
    tag is not SEARCH.  So for a matched address the result is dropped
    iff the tag is not SEARCH, and a SEARCH request always reaches the
    forwarding loop, which forwards the request itself whenever an answer
    carries its name and the name ends in its domain. *)
Theorem search_exempt_from_wildcard req wildcards w server w1 answers w2
        b wildcards' w3 :
  NextNameserver w = Done server w1 →
  dnsQuery (reqDomain req) (reqName req) server w1 = Done (answers, None) w2 →
  GetARecordData answers ≠ "" →
  matchesWildcard (reqName req) (reqDomain req) (GetARecordData answers)
                  wildcards w2
  = Done (b, wildcards') w3 →
  ∃ v,
    performDNSRequest req wildcards w = Done (v, wildcards') w3
    ∧ (v = WildcardMatch ↔ b = true ∧ reqTag req ≠ SEARCH)
    ∧ (b = true → (v = WildcardMatch ↔ reqTag req ≠ SEARCH))
    ∧ (v = WildcardMatch → emitted v = [])
    ∧ (reqTag req = SEARCH →
       v = Forwarded (forwardAnswers req (GetARecordData answers) answers)
       ∧ ∀ record,
           record ∈ answers → ansName record = reqName req →
           HasSuffix (reqName req) (reqDomain req) = true →
           mkRequest (trim252F (reqName req)) (reqDomain req)
                     (GetARecordData answers) SEARCH (reqSource req)
           ∈ emitted v).
Proof.
  intros Hnext Hquery Hip Hmatch.
  rewrite (performDNSRequest_unfold req wildcards w server w1 answers w2
             b wildcards' w3 Hnext Hquery Hip Hmatch).
  eexists. split; [reflexivity|].
  destruct (decide (reqTag req = SEARCH)) as [Htag|Htag].
  - rewrite (bool_decide_eq_true_2 _ Htag). cbn [negb andb].
    split_and!.
    + split; [done|]. by intros [_ ?].
    + intros _. split; [done|done].
    + done.
    + intros _. split; [done|]. intros record Hin Hname Hsuf. cbn [emitted].
      rewrite <- Htag. by eapply forwardAnswers_own_name.
  - rewrite (bool_decide_eq_false_2 _ Htag). cbn [negb andb].
    destruct b.
    + split_and!; [done|done|done|done].
    + split_and!; [|done|done|done]. split; [done|]. by intros [? _].
Qed.

Lemma firstOccurrence_app_l inputs x k r :
  firstOccurrence inputs k r → firstOccurrence (inputs ++ [x]) k r.
Proof.
  intros [Hk Hfirst]. pose proof (lookup_lt_Some _ _ _ Hk) as Hlt. split.
  - by rewrite lookup_app_l.
  - intros j r' Hj Hr'. rewrite lookup_app_l in Hr' by lia. by eapply Hfirst.
Qed.

Lemma firstOccurrence_app_inv inputs x k r :
  firstOccurrence (inputs ++ [x]) k r →
  firstOccurrence inputs k r
  ∨ (k = List.length inputs ∧ r = x
     ∧ ∀ r', r' ∈ inputs → reqName r' ≠ reqName x).
Proof.
  intros [Hk Hfirst]. destruct (decide (k < List.length inputs)) as [Hlt|Hge].
  - left. split.
    + by rewrite lookup_app_l in Hk.
    + intros j r' Hj Hr'. eapply Hfirst; [done|]. by rewrite lookup_app_l by lia.
  - right. pose proof (lookup_lt_Some _ _ _ Hk) as Hlen.
    rewrite length_app in Hlen. cbn in Hlen.
    assert (k = List.length inputs) as -> by lia.
    rewrite lookup_app_r, Nat.sub_diag in Hk by lia. injection Hk as <-.
    split_and!; [done|done|].
    intros r' [j Hj]%list_elem_of_lookup_1.
    eapply Hfirst; [by eapply lookup_lt_Some|]. rewrite lookup_app_l; [done|].
    by eapply lookup_lt_Some.
Qed.

Lemma pipeInvariant_init active0 : pipeInvariant [] (mkPipe [] ∅ active0 []).
Proof.
  split; cbn.
  - intros n. split; [by intros ?%not_elem_of_empty|].
    by intros (_ & r & ?%elem_of_nil & _).
  - by intros r ?%elem_of_nil.
  - by intros k r [? _].
  - constructor.
  - by intros r ?%elem_of_nil.
Qed.

Lemma pipeInvariant_input inputs s add :
  pipeInvariant inputs s →
  pipeInvariant (inputs ++ [normalise add]) (onInput add s).
Proof.
  intros [Hfil Hadm Hcom Hnd Hdom]. unfold onInput. fold (normalise add).
  set (x := normalise add).
  destruct (String.eqb_spec (reqName x) "") as [Hempty|Hname]; cbn [negb andb].
  { split; cbn; try done.
    - intros n. rewrite Hfil. split.
      + intros (Hn & r & Hr & Hrn). split; [done|]. exists r.
        split; [|done]. apply elem_of_app. by left.
      + intros (Hn & r & Hr & Hrn). split; [done|]. exists r. split; [|done].
        apply elem_of_app in Hr as [Hr|Hr%list_elem_of_singleton]; [done|].
        congruence.
    - intros r Hr. destruct (Hadm r Hr) as (Hn & k & Hk).
      split; [done|]. exists k. by apply firstOccurrence_app_l.
    - intros k r Hk Hn Hd.
      apply firstOccurrence_app_inv in Hk as [Hk|(_ & -> & _)]; [|done].
      by eapply Hcom. }
  destruct (decide (reqName x ∈ nameFilter s)) as [Hseen|Hnew].
  { rewrite (bool_decide_eq_true_2 _ Hseen). cbn [negb].
    split; cbn; try done.
    - intros n. rewrite Hfil. split.
      + intros (Hn & r & Hr & Hrn). split; [done|]. exists r.
        split; [|done]. apply elem_of_app. by left.
      + intros (Hn & r & Hr & Hrn). split; [done|].
        apply elem_of_app in Hr as [Hr|Hr%list_elem_of_singleton].
        * by exists r.
        * subst r. apply Hfil in Hseen as (_ & r' & Hr' & Hrn').
          exists r'. split; [done|congruence].
    - intros r Hr. destruct (Hadm r Hr) as (Hn & k & Hk).
      split; [done|]. exists k. by apply firstOccurrence_app_l.
    - intros k r Hk Hn Hd.
      apply firstOccurrence_app_inv in Hk as [Hk|(_ & -> & Hfresh)];
        [by eapply Hcom|].
      apply Hfil in Hseen as (_ & r' & Hr' & Hrn'). by destruct (Hfresh r' Hr'). }
  rewrite (bool_decide_eq_false_2 _ Hnew). cbn [negb].
  assert (Hfresh : ∀ r', r' ∈ inputs → reqName r' ≠ reqName x).
  { intros r' Hr' Heq. apply Hnew, Hfil. split; [done|]. by exists r'. }
  split; cbn.
  - intros n. rewrite elem_of_union, Hfil, elem_of_singleton. split.
    + intros [(Hn & r & Hr & Hrn)| ->].
      * split; [done|]. exists r. split; [|done]. apply elem_of_app. by left.
      * split; [done|]. exists x. split; [|done].
        apply elem_of_app. right. by apply list_elem_of_singleton.
    + intros (Hn & r & Hr & Hrn).
      apply elem_of_app in Hr as [Hr|Hr%list_elem_of_singleton].
      * left. split; [done|]. by exists r.
      * right. subst r. by rewrite <- Hrn.
  - intros r Hr. rewrite app_assoc in Hr.
    apply elem_of_app in Hr as [Hr|Hr%list_elem_of_singleton].
    + destruct (Hadm r Hr) as (Hn & k & Hk).
      split; [done|]. exists k. by apply firstOccurrence_app_l.
    + subst r. split; [done|]. exists (List.length inputs). split.
      * by rewrite lookup_app_r, Nat.sub_diag by lia.
      * intros j r' Hj Hr'. rewrite lookup_app_l in Hr' by lia.
        apply Hfresh. by eapply list_elem_of_lookup_2.
  - intros k r Hk Hn Hd. rewrite app_assoc. apply elem_of_app.
    apply firstOccurrence_app_inv in Hk as [Hk|(_ & -> & _)].
    + left. by eapply Hcom.
    + right. by apply list_elem_of_singleton.
  - rewrite app_assoc, map_app. apply NoDup_app. split_and!; [done| |].
    + intros n Hn Hx. cbn in Hx. apply list_elem_of_singleton in Hx. subst n.
      apply list_elem_of_fmap in Hn as (r & Hrn & Hr).
      destruct (Hadm r Hr) as (_ & k & Hk & _).
      eapply Hfresh; [by eapply list_elem_of_lookup_2|done].
    + cbn. apply NoDup_singleton.
  - done.
Qed.

Lemma pipeInvariant_tick inputs s :
  pipeInvariant inputs s → pipeInvariant inputs (onTick s).
Proof.
  intros [Hfil Hadm Hcom Hnd Hdom]. unfold onTick.
  destruct (queue s) as [|next rest] eqn:Hq.
  { split; rewrite ?Hq; done. }
  destruct (String.eqb_spec (reqDomain next) "") as [Hempty|Hdomain];
    cbn [negb].
  - split; cbn.
    + done.
    + intros r Hr. apply Hadm. apply elem_of_app in Hr as [Hr|Hr];
        apply elem_of_app; [by left|right]. by apply list_elem_of_further.
    + intros k r Hk Hn Hd. specialize (Hcom k r Hk Hn Hd).
      apply elem_of_app in Hcom as [Hr|Hr]; apply elem_of_app; [by left|].
      apply elem_of_cons in Hr as [->|Hr]; [done|by right].
    + rewrite map_app in Hnd. rewrite map_app. cbn in Hnd.
      apply NoDup_app in Hnd as (Hd1 & Hd2 & Hd3).
      apply NoDup_cons in Hd3 as [_ Hd3].
      apply NoDup_app. split_and!; [done| |done].
      intros n Hn Hn'. eapply Hd2; [done|]. by apply list_elem_of_further.
    + done.
  - assert (Heq : (dispatched s ++ [next]) ++ rest = dispatched s ++ next :: rest).
    { by rewrite <- app_assoc. }
    split; cbn; rewrite ?Heq; try done.
    intros r [Hr|Hr%list_elem_of_singleton]%elem_of_app; [by apply Hdom|].
    by subst r.
Qed.

Lemma pipeInvariant_check inputs s :
  pipeInvariant inputs s → pipeInvariant inputs (onCheck s).
Proof.
  intros Hinv. unfold onCheck. destruct (queue s) eqn:Hq; [|done].
  destruct Hinv as [Hfil Hadm Hcom Hnd Hdom].
  split; cbn; rewrite ?Hq in *; done.
Qed.

Lemma processLoop_invariant events :
  ∀ inputs s,
    pipeInvariant inputs s →
    pipeInvariant (inputs ++ inputsOf events) (processLoop events s).
Proof.
  induction events as [|e rest IH]; intros inputs s Hinv.
  - cbn. by rewrite app_nil_r.
  - destruct e as [add| | |]; cbn [processLoop inputsOf].
    + rewrite cons_middle, app_assoc. apply IH. by apply pipeInvariant_input.
    + apply IH. by apply pipeInvariant_tick.
    + apply IH. by apply pipeInvariant_check.
    + by rewrite app_nil_r.
Qed.

(** C5 (amended): whatever [processRequests] receives, no name is
    dispatched more than once; a request is dispatched only if its
    normalised name is not empty, its domain is not empty, and no earlier
    request had its name; and once the queue has drained, every request
    with these three properties has been dispatched.  Whether the domain
    is a suffix of the name plays no part. *)
Theorem dispatch_first_occurrences (active0 : bool) (events : list Event) :
  let s := processRequests active0 events in
  let inputs := inputsOf events in
  NoDup (map reqName (dispatched s))
  ∧ (∀ r, r ∈ dispatched s →
          reqName r ≠ "" ∧ reqDomain r ≠ ""
          ∧ ∃ k, firstOccurrence inputs k r)
  ∧ (queue s = [] →
     ∀ k r, firstOccurrence inputs k r →
            reqName r ≠ "" → reqDomain r ≠ "" → r ∈ dispatched s).
Proof.
  cbn zeta. unfold processRequests.
  destruct (processLoop_invariant events [] _ (pipeInvariant_init active0))
    as [Hfil Hadm Hcom Hnd Hdom].
  rewrite app_nil_l in *.
  split_and!.
  - rewrite map_app in Hnd. by apply NoDup_app in Hnd as (? & _).
  - intros r Hr. destruct (Hadm r) as (Hn & k & Hk).
    { apply elem_of_app. by left. }
    split_and!; [done|by apply Hdom|by exists k].
  - intros Hdrained k r Hk Hn Hd. specialize (Hcom k r Hk Hn Hd).
    by rewrite Hdrained, app_nil_r in Hcom.
Qed.

(** ** Further properties of the resolver pool *)

Lemma knownPublicServers_NoDup : NoDup knownPublicServers.
Proof. apply (bool_decide_unpack (NoDup knownPublicServers)). vm_compute. exact I. Qed.

(** X1: whatever the probes answer, [testPublicServers] returns, after
    exactly one query per known server and without drawing a random
    number; the servers it returns are a sub-list of the known list in
    the same order, without repetition, 25 at most. *)
Theorem testPublicServers_sublist (w : World) :
  ∃ working w',
    testPublicServers w = Done working w'
    ∧ working `sublist_of` knownPublicServers
    ∧ NoDup working
    ∧ List.length working ≤ 25
    ∧ cursor w' = cursor w
    ∧ usableServers w' = usableServers w
    ∧ ∃ added, qlog w' = qlog w ++ added ∧ List.length added = 25.
Proof.
  unfold testPublicServers. rewrite testServers_spec.
  eexists _, _. split; [reflexivity|]. rewrite app_nil_l.
  cbn [cursor qlog usableServers].
  split_and!; [apply sublist_filter
              |apply NoDup_filter, knownPublicServers_NoDup
              | |done|done|].
  - etrans; [apply length_filter|]. vm_compute. lia.
  - eexists. split; [reflexivity|]. by rewrite length_map.
Qed.

(** ** Further properties of the query engine *)

Lemma last_cons_default {A : Type} (l : list A) :
  ∀ x d, List.last (x :: l) d = List.last l x.
Proof.
  induction l as [|y l IH]; intros x d; [done|].
  change (List.last (x :: y :: l) d) with (List.last (y :: l) d).
  by rewrite !IH.
Qed.

Lemma chainEnd_snoc name answers a :
  chainEnd name (answers ++ [a]) = ansData a.
Proof. unfold chainEnd. rewrite map_app. apply List.last_last. Qed.

Lemma aliasChain_snoc server name answers a more :
  aliasChain server name answers →
  ResolveDNS (chainEnd name answers) server "CNAME" = (a :: more, None) →
  aliasChain server name (answers ++ [a]).
Proof.
  revert name. induction answers as [|x rest IH]; intros name Hchain Hlast.
  - cbn. split; [by exists more|done].
  - destruct Hchain as [Hx Hrest]. cbn. split; [done|].
    apply IH; [done|]. unfold chainEnd in *. cbn [map] in Hlast.
    by rewrite last_cons_default in Hlast.
Qed.

Lemma cnameLoop_chain server start n :
  ∀ answers w result final w',
    aliasChain server start answers →
    cnameLoop n server answers (chainEnd start answers) w
    = Done (result, final) w' →
    aliasChain server start result
    ∧ final = chainEnd start result
    ∧ List.length answers ≤ List.length result ≤ List.length answers + n
    ∧ (List.length result < List.length answers + n →
       is_Some (snd (ResolveDNS final server "CNAME"))).
Proof.
  induction n as [|n IH]; intros answers w result final w' Hchain Hrun.
  - cbn in Hrun. injection Hrun as <- <- <-.
    split_and!; [done|done|lia|lia|lia].
  - rewrite cnameLoop_step in Hrun.
    destruct (ResolveDNS (chainEnd start answers) server "CNAME")
      as [[|a more] [e|]] eqn:Hres; cbn [fst snd] in Hrun.
    + injection Hrun as <- <- <-.
      split_and!; [done|done|lia|lia|]. intros _. rewrite Hres. by eexists.
    + done.
    + injection Hrun as <- <- <-.
      split_and!; [done|done|lia|lia|]. intros _. rewrite Hres. by eexists.
    + rewrite <- (chainEnd_snoc start answers a) in Hrun.
      apply IH in Hrun as (Hc & Hf & Hlen & Hstop).
      * rewrite length_app in Hlen, Hstop. cbn in Hlen, Hstop.
        split_and!; [done|done|lia|lia|]. intros Hlt. apply Hstop. lia.
      * by eapply aliasChain_snoc.
Qed.

(** X2: under the contract of the DNS library, [recursiveCNAME] returns;
    the answers it returns are a chain of aliases that starts at the
    name it was given, of 10 links at most; the name it returns is the
    target of the last link, or the name it was given when there is no
    link; and when the chain has fewer than 10 links, the CNAME lookup
    of the returned name failed. *)
Theorem recursiveCNAME_chain (name server : string) (w : World) :
  cnameAnswersNonEmpty server →
  ∃ answers final w',
    recursiveCNAME name server w = Done (answers, final) w'
    ∧ aliasChain server name answers
    ∧ final = chainEnd name answers
    ∧ List.length answers ≤ 10
    ∧ (List.length answers < 10 →
       is_Some (snd (ResolveDNS final server "CNAME"))).
Proof.
  intros Hok. pose proof (cnameLoop_safe 10 server Hok [] name w) as Hsafe.
  unfold recursiveCNAME.
  destruct (cnameLoop 10 server [] name w) as [[answers final] w'|w'] eqn:Hrun;
    [|done].
  exists answers, final, w'. split; [done|].
  destruct (cnameLoop_chain server name 10 [] w answers final w' I Hrun)
    as (Hc & Hf & Hlen & Hstop).
  cbn in Hlen, Hstop. split_and!; [done|done|lia|done].
Qed.

(** ** Further properties of the wildcard detector *)

Lemma answersToStringSet_loop_elem answers :
  ∀ (ss : stringset.StringSet) x,
    x ∈ answersToStringSet_loop answers ss
    ↔ x ∈ ss ∨ ∃ a, a ∈ answers ∧ ansData a = x.
Proof.
  induction answers as [|a rest IH]; intros ss x; cbn [answersToStringSet_loop].
  - split; [by left|]. intros [?|(a & Ha%elem_of_nil & _)]; done.
  - rewrite IH. unfold stringset.Add. rewrite elem_of_union, elem_of_singleton.
    split.
    + intros [[? | ->]|(b & Hb & Hx)].
      * by left.
      * right. exists a. split; [apply list_elem_of_here|done].
      * right. exists b. split; [by apply list_elem_of_further|done].
    + intros [?|(b & Hb & Hx)]; [by left; left|].
      apply elem_of_cons in Hb as [-> | Hb].
      * left. by right.
      * right. by exists b.
Qed.

(** X3: the set [answersToStringSet] builds holds exactly the data
    fields of the answers, of whatever record type, and is empty only
    for an empty list of answers. *)
Theorem answersToStringSet_elem (answers : list DNSAnswer) :
  (∀ x, x ∈ answersToStringSet answers ↔ ∃ a, a ∈ answers ∧ ansData a = x)
  ∧ (answersToStringSet answers = ∅ ↔ answers = []).
Proof.
  assert (Helem : ∀ x, x ∈ answersToStringSet answers
                       ↔ ∃ a, a ∈ answers ∧ ansData a = x).
  { intros x. unfold answersToStringSet, stringset.NewStringSet.
    rewrite answersToStringSet_loop_elem. split; [|by right].
    by intros [?%not_elem_of_empty|?]. }
  split; [done|]. split.
  - intros Hempty. destruct answers as [|a rest]; [done|].
    assert (ansData a ∈ answersToStringSet (a :: rest)) as Hin.
    { apply Helem. exists a. split; [apply list_elem_of_here|done]. }
    rewrite Hempty in Hin. by apply not_elem_of_empty in Hin.
  - by intros ->.
Qed.

Lemma wildcardDetection_threeProbes sub root :
  wildcardDetection sub root = NextNameserver ≫= threeProbes sub root.
Proof. reflexivity. Qed.

Lemma logs_bind_gen {A B : Type} (m : M A) (k : A → M B)
      (P1 P2 P : list Query → Prop) :
  logs m P1 → (∀ a, logs (k a) P2) →
  (∀ l1 l2, P1 l1 → P2 l2 → P (l1 ++ l2)) → (∀ l1, P1 l1 → P l1) →
  logs (m ≫= k) P.
Proof.
  intros Hm Hk Happ Hstop w. destruct (Hm w) as (l1 & Hq1 & Hp1 & HP1).
  rewrite finalWorld_bind. destruct (m w) as [a w1|w1]; cbn in Hq1, Hp1.
  - destruct (Hk a w1) as (l2 & Hq2 & Hp2 & HP2).
    exists (l1 ++ l2). rewrite Hq2, Hq1, Hp2, Hp1, <- app_assoc.
    split_and!; [done|done|by apply Happ].
  - exists l1. split_and!; [done|done|by apply Hstop].
Qed.

Lemma budgetLog_nil server n : budgetLog server n [].
Proof. split_and!; [constructor|cbn; lia|cbn; lia]. Qed.

Lemma budgetLog_app server n1 n2 l1 l2 :
  budgetLog server n1 l1 → budgetLog server n2 l2 →
  budgetLog server (n1 + n2) (l1 ++ l2).
Proof.
  intros (H1 & C1 & L1) (H2 & C2 & L2). split_and!.
  - by apply Forall_app.
  - rewrite countQType_app. lia.
  - rewrite length_app. lia.
Qed.

Lemma budgetLog_mono server n1 n2 l :
  n1 ≤ n2 → budgetLog server n1 l → budgetLog server n2 l.
Proof. intros Hle (H & C & L). split_and!; [done|lia|lia]. Qed.

Lemma budget_ret {A : Type} (a : A) server n : logs (mret a) (budgetLog server n).
Proof.
  intros w. exists []. cbn. rewrite app_nil_r.
  split_and!; [done|done|apply budgetLog_nil].
Qed.

Lemma budget_bind {A B : Type} (m : M A) (k : A → M B) server n1 n2 :
  logs m (budgetLog server n1) → (∀ a, logs (k a) (budgetLog server n2)) →
  logs (m ≫= k) (budgetLog server (n1 + n2)).
Proof.
  intros Hm Hk. eapply logs_bind_gen; [exact Hm|exact Hk| |].
  - intros l1 l2. apply budgetLog_app.
  - intros l1. apply budgetLog_mono. lia.
Qed.

Lemma dnsQuery_queries_length domain name server w :
  ∃ added,
    qlog (finalWorld (dnsQuery domain name server w)) = qlog w ++ added
    ∧ List.length added ≤ 12.
Proof.
  destruct (cnameLoop_queries 10 server [] name w) as (chain & Hlog & Hlen & _).
  fold (recursiveCNAME name server w) in Hlog.
  rewrite dnsQuery_unfold.
  destruct (recursiveCNAME name server w) as [[answers final] w1|w1].
  - exists (cnameQueries server chain
            ++ [(final, server, "A"); (final, server, "AAAA")]).
    split.
    + cbn zeta.
      destruct (snd (ResolveDNS final server "A"));
        destruct (snd (ResolveDNS final server "AAAA"));
        cbn in *; rewrite Hlog, <- !app_assoc; reflexivity.
    + unfold cnameQueries. rewrite length_app, length_map. cbn. lia.
  - exists (cnameQueries server chain). split; [done|].
    unfold cnameQueries. rewrite length_map. lia.
Qed.

Lemma budget_dnsQuery domain name server :
  logs (dnsQuery domain name server) (budgetLog server 1).
Proof.
  intros w. destruct (logs_dnsQuery domain name server w)
    as (added & Hq & Hp & Hsent & Hcount).
  destruct (dnsQuery_queries_length domain name server w) as (added' & Hq' & Hlen).
  rewrite Hq in Hq'. apply app_inv_head in Hq'. subst added'.
  exists added. split_and!; [done|done|]. split_and!; [done|done|lia].
Qed.

Lemma budget_unlikelyName sub server :
  logs (unlikelyName sub) (budgetLog server 0).
Proof.
  intros w. destruct (unlikelyName_spec sub w)
    as (name & w' & Hrun & Hq & Hp & _).
  exists []. rewrite Hrun. cbn. rewrite app_nil_r.
  split_and!; [done|done|apply budgetLog_nil].
Qed.

Lemma budget_checkForWildcard sub root server :
  logs (checkForWildcard sub root server) (budgetLog server 1).
Proof.
  unfold checkForWildcard.
  apply (budget_bind _ _ server 0 1); [apply budget_unlikelyName|].
  intros name. destruct (negb (String.eqb name "")); [|apply budget_ret].
  apply (budget_bind _ _ server 1 0); [apply budget_dnsQuery|].
  intros r. destruct (snd r); apply budget_ret.
Qed.

Lemma budget_threeProbes sub root server :
  logs (threeProbes sub root server) (budgetLog server 3).
Proof.
  unfold threeProbes.
  apply (budget_bind _ _ server 1 2); [apply budget_checkForWildcard|].
  intros [s1|]; [|apply budget_ret].
  apply (budget_bind _ _ server 1 1); [apply budget_checkForWildcard|].
  intros [s2|]; [|apply budget_ret].
  apply (budget_bind _ _ server 1 0); [apply budget_checkForWildcard|].
  intros [s3|]; [|apply budget_ret].
  destruct (negb (stringset.Empty s1)
            && (stringset.Equal s1 s2 && stringset.Equal s2 s3));
    apply budget_ret.
Qed.

Lemma threeProbes_nonempty sub root server w s w' :
  threeProbes sub root server w = Done (Some s) w' → s ≠ ∅.
Proof.
  unfold threeProbes. rewrite bind_unfold.
  destruct (checkForWildcard sub root server w) as [[s1|] w1|w1]; [|done..].
  rewrite bind_unfold.
  destruct (checkForWildcard sub root server w1) as [[s2|] w2|w2]; [|done..].
  rewrite bind_unfold.
  destruct (checkForWildcard sub root server w2) as [[s3|] w3|w3]; [|done..].
  unfold stringset.Empty.
  destruct (decide (s1 = ∅)) as [He|He].
  - by rewrite (bool_decide_eq_true_2 _ He).
  - destruct (negb (bool_decide (s1 = ∅))
              && (stringset.Equal s1 s2 && stringset.Equal s2 s3)); [|done].
    by intros [= <- <-].
Qed.

(** X4: however it ends, one run of [wildcardDetection] leaves the pool
    as it is and issues at most 36 queries, at most 3 of them A queries
    (one per probe), all to one server, which is a member of the pool;
    and a set it returns is never empty. *)
Theorem wildcardDetection_budget (sub root : string) (w : World) :
  ∃ added server,
    qlog (finalWorld (wildcardDetection sub root w)) = qlog w ++ added
    ∧ usableServers (finalWorld (wildcardDetection sub root w))
      = usableServers w
    ∧ List.length added ≤ 36
    ∧ countQType "A" added ≤ 3
    ∧ Forall (sentTo server) added
    ∧ (added ≠ [] → server ∈ usableServers w)
    ∧ (∀ s w', wildcardDetection sub root w = Done (Some s) w' → s ≠ ∅).
Proof.
  rewrite wildcardDetection_threeProbes, bind_unfold.
  destruct (usableServers w) as [|s0 pool] eqn:Hpool.
  - rewrite NextNameserver_empty_pool by done.
    exists [], "". cbn. rewrite app_nil_r, Hpool.
    split_and!; [done|done|lia|lia|constructor|done|done].
  - destruct (NextNameserver_spec w) as (server & Hnext & Hin);
      [by rewrite Hpool|].
    rewrite Hnext.
    destruct (budget_threeProbes sub root server
                (mkWorld (S (cursor w)) (qlog w) (usableServers w)))
      as (added & Hq & Hp & Hsent & Hcount & Hlen).
    exists added, server. cbn in Hq, Hp. rewrite Hq, Hp, <- Hpool.
    split_and!; [done|done|lia|lia|done|done|].
    intros s w'. apply threeProbes_nonempty.
Qed.

Lemma unlikelyName_gives_up sub w :
  maxNameLen ≤ String.length sub → unlikelyName sub w = Done "" w.
Proof.
  intros Hlen. unfold unlikelyName, labelLength, maxNameLen, maxLabelLen in *.
  destruct (Z.gtb_spec (Z.of_nat 253 - Z.of_nat (String.length sub))
                       (Z.of_nat 63)) as [Hbig|_]; [lia|].
  destruct (Z.ltb_spec (Z.of_nat 253 - Z.of_nat (String.length sub)) 1)
    as [_|Hsmall]; [done|lia].
Qed.

(** X5: a suffix that leaves no room for a label ([maxNameLen]
    characters or more) is entered in the cache as having no wildcard
    without any DNS query: the only effect besides the new entry is the
    random number drawn to choose a resolver. *)
Theorem overlong_suffix_negative (sub root : string)
        (wildcards : gmap string dnsWildcard) (w : World) :
  maxNameLen ≤ String.length sub →
  usableServers w ≠ [] →
  wildcards !! sub = None →
  lookupOrDetect sub root wildcards w
  = Done (mkWildcard false None, <[sub := mkWildcard false None]> wildcards)
         (mkWorld (S (cursor w)) (qlog w) (usableServers w)).
Proof.
  intros Hlen Hpool Hnew. unfold lookupOrDetect. rewrite Hnew, bind_unfold.
  rewrite wildcardDetection_threeProbes, bind_unfold.
  destruct (NextNameserver_spec w Hpool) as (server & Hnext & _).
  rewrite Hnext. unfold threeProbes, checkForWildcard.
  rewrite !bind_unfold, unlikelyName_gives_up by done.
  reflexivity.
Qed.

(** ** The cache of the wildcard detector *)

Lemma entryMatches_wf e ip hit w w' :
  entryMatches e ip w = Done hit w' → entryWellFormed e.
Proof.
  unfold entryMatches, entryWellFormed. destruct (HasWildcard e); [|done].
  destruct (Answers e); [by eexists|done].
Qed.

Lemma entryMatches_run e ip w :
  entryWellFormed e → ∃ hit, entryMatches e ip w = Done hit w.
Proof.
  unfold entryMatches, entryWellFormed. destruct (HasWildcard e).
  - intros Hwf. destruct (Hwf eq_refl) as [s ->]. by eexists.
  - by eexists.
Qed.

Lemma wildcardLoop_fills labels root ip i :
  ∀ wildcards answer w b wildcards' w',
    wildcardLoop i labels root ip wildcards answer w = Done (b, wildcards') w' →
    ∀ j, 1 ≤ j ≤ i →
         ∃ e, wildcards' !! suffixAt labels j = Some e ∧ entryWellFormed e.
Proof.
  induction i as [|i IH]; intros wildcards answer w b wildcards' w' Hrun j Hj;
    [lia|].
  rewrite wildcardLoop_step in Hrun.
  destruct (lookupOrDetect (suffixAt labels (S i)) root wildcards w)
    as [[e wildcards1] w1|w1] eqn:Hlook; [|done].
  destruct (entryMatches e ip w1) as [hit w2|w2] eqn:Hhit; [|done].
  destruct (decide (j = S i)) as [->|Hne].
  - exists e. split; [|by eapply entryMatches_wf].
    apply lookupOrDetect_inv in Hlook as (Hsub & _).
    by eapply wildcardLoop_keeps.
  - eapply IH; [done|lia].
Qed.

Lemma wildcardLoop_cached labels root ip i :
  ∀ wildcards answer u,
    (∀ j, 1 ≤ j ≤ i →
          ∃ e, wildcards !! suffixAt labels j = Some e ∧ entryWellFormed e) →
    ∃ b, wildcardLoop i labels root ip wildcards answer u
         = Done (b, wildcards) u.
Proof.
  induction i as [|i IH]; intros wildcards answer u Hfull.
  - by eexists.
  - rewrite wildcardLoop_step. destruct (Hfull (S i)) as (e & He & Hwf); [lia|].
    unfold lookupOrDetect. rewrite He. cbn [mret M_ret].
    destruct (entryMatches_run e ip u Hwf) as [hit ->].
    apply IH. intros j Hj. apply Hfull. lia.
Qed.

Lemma wildcardLoop_dom labels root ip i :
  ∀ wildcards answer w b wildcards' w',
    wildcardLoop i labels root ip wildcards answer w = Done (b, wildcards') w' →
    ∀ k x, wildcards' !! k = Some x →
           wildcards !! k = Some x
           ∨ ∃ j, 1 ≤ j ≤ i ∧ k = suffixAt labels j.
Proof.
  induction i as [|i IH]; intros wildcards answer w b wildcards' w' Hrun k x Hk.
  - cbn in Hrun. injection Hrun as <- <- <-. by left.
  - rewrite wildcardLoop_step in Hrun.
    destruct (lookupOrDetect (suffixAt labels (S i)) root wildcards w)
      as [[e wildcards1] w1|w1] eqn:Hlook; [|done].
    destruct (entryMatches e ip w1) as [hit w2|w2] eqn:Hhit; [|done].
    apply lookupOrDetect_inv in Hlook as (_ & _ & Hold & _).
    destruct (IH _ _ _ _ _ _ Hrun k x Hk) as [Hk1|(j & Hj & ->)].
    + destruct (decide (k = suffixAt labels (S i))) as [->|Hne].
      * right. exists (S i). split; [lia|done].
      * left. by apply Hold.
    + right. exists j. split; [lia|done].
Qed.

(** X6: the cache works as a cache.  After [matchesWildcard] has
    returned for a name and an apex, any later call for the same name and
    apex on the cache it left returns without a DNS query and without
    drawing a random number, and leaves the cache as it is; for the same
    address it returns the same decision. *)
Theorem matchesWildcard_cached name root ip wildcards w b wildcards' w' :
  matchesWildcard name root ip wildcards w = Done (b, wildcards') w' →
  (∀ u, matchesWildcard name root ip wildcards' u = Done (b, wildcards') u)
  ∧ (∀ ip' u, ∃ b',
       matchesWildcard name root ip' wildcards' u = Done (b', wildcards') u).
Proof.
  unfold matchesWildcard. intros Hrun.
  pose proof (wildcardLoop_fills _ _ _ _ _ _ _ _ _ _ Hrun) as Hfull.
  split.
  - intros u.
    destruct (wildcardLoop_cached (Split name ".") root ip _ wildcards' false u
                Hfull) as [b2 Hrun2].
    rewrite Hrun2. do 2 f_equal.
    pose proof (wildcardLoop_spec _ _ _ _ _ _ _ _ _ _ Hrun) as H1.
    pose proof (wildcardLoop_spec _ _ _ _ _ _ _ _ _ _ Hrun2) as H2.
    destruct b, b2; try done.
    + apply (proj2 H2), (proj1 H1). done.
    + symmetry. apply (proj2 H1), (proj1 H2). done.
  - intros ip' u. by apply wildcardLoop_cached.
Qed.

(** X7: [matchesWildcard] only ever adds to the cache.  The entries that
    were there are still there, unchanged; the keys of the cache it
    leaves are the old keys and the suffixes [labels[j:]] it examined,
    each of which now has an entry. *)
Theorem matchesWildcard_cache_growth name root ip wildcards w b wildcards' w' :
  matchesWildcard name root ip wildcards w = Done (b, wildcards') w' →
  (∀ k x, wildcards !! k = Some x → wildcards' !! k = Some x)
  ∧ (∀ k, is_Some (wildcards' !! k) ↔
          is_Some (wildcards !! k)
          ∨ ∃ j, 1 ≤ j ≤ List.length (Split name ".")
                         - List.length (Split root ".")
                 ∧ k = suffixAt (Split name ".") j).
Proof.
  unfold matchesWildcard. intros Hrun. split.
  - by eapply wildcardLoop_keeps.
  - intros k. split.
    + intros [x Hx].
      destruct (wildcardLoop_dom _ _ _ _ _ _ _ _ _ _ Hrun k x Hx)
        as [Hold|Hnew]; [left; by eexists|by right].
    + intros [[x Hx]|(j & Hj & ->)].
      * exists x. by eapply wildcardLoop_keeps.
      * destruct (wildcardLoop_fills _ _ _ _ _ _ _ _ _ _ Hrun j Hj)
          as (e & He & _). by eexists.
Qed.

(** ** The worker that owns the cache *)

Lemma returns_matchesWildcard name root ip wildcards :
  (∀ server, cnameAnswersNonEmpty server) →
  cacheWellFormed wildcards →
  returns (matchesWildcard name root ip wildcards)
          (λ r, cacheWellFormed (snd r)).
Proof. intros Hok Hwf. unfold matchesWildcard. by apply returns_wildcardLoop. Qed.

Lemma returns_wildcardWorker events :
  (∀ server, cnameAnswersNonEmpty server) →
  ∀ wildcards,
    cacheWellFormed wildcards →
    returns (wildcardWorker events wildcards)
            (λ r, List.length (fst r) = List.length (requestsOf events)
                  ∧ cacheWellFormed (snd r)).
Proof.
  intros Hok. induction events as [|[req|] rest IH]; intros wildcards Hwf.
  - by apply returns_ret.
  - cbn [wildcardWorker requestsOf].
    eapply returns_bind; [by apply returns_matchesWildcard|].
    intros [b wildcards1] Hwf1. cbn in Hwf1.
    eapply returns_bind; [by apply IH|].
    intros [bs wildcards2] [Hlen Hwf2]. cbn in Hlen, Hwf2.
    apply returns_ret. cbn. split; [by rewrite Hlen|done].
  - by apply returns_ret.
Qed.

(** X8: started with its empty cache, the worker of
    [processWildcardMatches] answers every match request it receives
    before the quit signal, one answer per request: with a pool that is
    not empty and a DNS library that keeps its contract, no request makes
    it panic, and in particular the answer set of an entry that reports a
    wildcard is never nil. *)
Theorem processWildcardMatches_serves (events : list WildcardEvent) (w : World) :
  (∀ server, cnameAnswersNonEmpty server) →
  usableServers w ≠ [] →
  ∃ answers wildcards w',
    processWildcardMatches events w = Done (answers, wildcards) w'
    ∧ List.length answers = List.length (requestsOf events)
    ∧ cacheWellFormed wildcards
    ∧ usableServers w' = usableServers w.
Proof.
  intros Hok Hpool. unfold processWildcardMatches.
  destruct (returns_wildcardWorker events Hok ∅) with (w := w)
    as ([answers wildcards] & w' & Hrun & Hpool' & Hlen & Hwf); [|done|].
  - intros sub e Hsub. by rewrite lookup_empty in Hsub.
  - by exists answers, wildcards, w'.
Qed.

(** ** Further properties of the request pipeline *)


Lemma performDNSRequest_inv req wildcards w v wildcards' w' :
  performDNSRequest req wildcards w = Done (v, wildcards') w' →
  ∃ server w1 r w2,
    NextNameserver w = Done server w1
    ∧ dnsQuery (reqDomain req) (reqName req) server w1 = Done r w2
    ∧ ((is_Some (snd r) ∧ v = NoRecords ∧ wildcards' = wildcards ∧ w' = w2)
       ∨ (snd r = None ∧ GetARecordData (fst r) = ""
          ∧ v = NoAddress ∧ wildcards' = wildcards ∧ w' = w2)
       ∨ (snd r = None ∧ GetARecordData (fst r) ≠ ""
          ∧ ∃ b,
              matchesWildcard (reqName req) (reqDomain req)
                              (GetARecordData (fst r)) wildcards w2
              = Done (b, wildcards') w'
              ∧ v = if negb (bool_decide (reqTag req = SEARCH)) && b
                    then WildcardMatch
                    else Forwarded
                           (forwardAnswers req (GetARecordData (fst r))
                                           (fst r)))).
Proof.
  unfold performDNSRequest. rewrite bind_unfold.
  destruct (NextNameserver w) as [server w1|w1]; [|done].
  rewrite bind_unfold.
  destruct (dnsQuery (reqDomain req) (reqName req) server w1)
    as [r w2|w2] eqn:Hquery; [|done].
  intros Hrun. exists server, w1, r, w2. split_and!; [done|done|].
  destruct (snd r) as [e|] eqn:Herr.
  - injection Hrun as <- <- <-. left. split_and!; [by eexists|done..].
  - destruct (String.eqb_spec (GetARecordData (fst r)) "") as [Hip|Hip].
    + injection Hrun as <- <- <-. right. left. done.
    + right. right. split_and!; [done|done|].
      rewrite bind_unfold in Hrun.
      destruct (matchesWildcard (reqName req) (reqDomain req)
                  (GetARecordData (fst r)) wildcards w2)
        as [[b wildcards1] w3|w3]; [|done].
      exists b.
      destruct (negb (bool_decide (reqTag req = SEARCH)) && b);
        by injection Hrun as <- <- <-.
Qed.


(** X10: a run of [performDNSRequest] that ends because the lookup
    failed or gave no address has not consulted the wildcard detector:
    the cache is as it was and at most 12 queries were issued.  No run
    removes or changes an entry of the cache. *)
Theorem discards_leave_cache req wildcards w v wildcards' w' :
  performDNSRequest req wildcards w = Done (v, wildcards') w' →
  (v = NoRecords ∨ v = NoAddress →
   wildcards' = wildcards
   ∧ ∃ added, qlog w' = qlog w ++ added ∧ List.length added ≤ 12)
  ∧ (∀ k x, wildcards !! k = Some x → wildcards' !! k = Some x).
Proof.
  intros Hrun.
  destruct (performDNSRequest_inv _ _ _ _ _ _ Hrun)
    as (server & w1 & r & w2 & Hnext & Hquery & Hcases).
  apply NextNameserver_inv in Hnext as [-> _].
  destruct (dnsQuery_queries_length (reqDomain req) (reqName req) server
              (mkWorld (S (cursor w)) (qlog w) (usableServers w)))
    as (added & Hlog & Hlen).
  rewrite Hquery in Hlog. cbn in Hlog.
  destruct Hcases
    as [(_ & -> & -> & ->)|[(_ & _ & -> & -> & ->)|(_ & _ & b & Hm & ->)]].
  - split; [|done]. intros _. split; [done|]. by exists added.
  - split; [|done]. intros _. split; [done|]. by exists added.
  - split.
    + destruct (negb (bool_decide (reqTag req = SEARCH)) && b);
        intros [?|?]; done.
    + by eapply matchesWildcard_keeps.
Qed.

(** X11: a request whose name has no more labels than its domain, the
    apex itself for one, is never dropped as a wildcard match, whatever
    its tag, and leaves the cache untouched: no suffix of such a name is
    examined. *)
Theorem short_name_never_suppressed req wildcards w v wildcards' w' :
  List.length (Split (reqName req) ".")
  ≤ List.length (Split (reqDomain req) ".") →
  performDNSRequest req wildcards w = Done (v, wildcards') w' →
  v ≠ WildcardMatch ∧ wildcards' = wildcards.
Proof.
  intros Hshort Hrun.
  destruct (performDNSRequest_inv _ _ _ _ _ _ Hrun)
    as (server & w1 & r & w2 & _ & _ &
        [(_ & -> & -> & _)|[(_ & _ & -> & -> & _)|(_ & _ & b & Hm & ->)]]);
    [done|done|].
  unfold matchesWildcard in Hm.
  replace (List.length (Split (reqName req) ".")
           - List.length (Split (reqDomain req) ".")) with 0 in Hm by lia.
  cbn in Hm. injection Hm as <- <- <-.
  by rewrite andb_false_r.
Qed.

Lemma processLoop_order events :
  ∀ inputs s,
    (dispatched s ++ queue s) `sublist_of` inputs →
    (dispatched (processLoop events s) ++ queue (processLoop events s))
      `sublist_of` (inputs ++ inputsOf events).
Proof.
  induction events as [|e rest IH]; intros inputs s Hsub.
  - cbn. by rewrite app_nil_r.
  - destruct e as [add| | |]; cbn [processLoop inputsOf].
    + rewrite cons_middle, app_assoc. apply IH. unfold onInput.
      fold (normalise add).
      destruct (negb (String.eqb (reqName (normalise add)) "")
                && negb (bool_decide (reqName (normalise add) ∈ nameFilter s))).
      * cbn. rewrite app_assoc. by apply sublist_app.
      * by apply sublist_inserts_r.
    + apply IH. unfold onTick. destruct (queue s) as [|next tail] eqn:Hq.
      * by rewrite Hq.
      * cbn. destruct (negb (String.eqb (reqDomain next) "")).
        -- by rewrite <- app_assoc.
        -- etrans; [|exact Hsub]. apply sublist_app; [done|].
           by apply sublist_cons.
    + apply IH. unfold onCheck.
      destruct (queue s) eqn:Hq; cbn; rewrite ?Hq; done.
    + by rewrite app_nil_r.
Qed.

(** X12: the pipeline is first in, first out.  The requests dispatched
    so far, followed by those still queued, appear in the order in which
    they were received: together they are a sub-sequence of the input. *)
Theorem dispatch_preserves_order (active0 : bool) (events : list Event) :
  let s := processRequests active0 events in
  (dispatched s ++ queue s) `sublist_of` inputsOf events.
Proof.
  cbn zeta. unfold processRequests.
  apply (processLoop_order events [] (mkPipe [] ∅ active0 [])).
  cbn. constructor.
Qed.

(** X13: nothing that arrives after the quit signal has any effect:
    the loop of [processRequests] ends in the state it had reached when
    the signal came. *)
Theorem quit_ends_processing (active0 : bool) (before after : list Event) :
  processRequests active0 (before ++ Quit :: after)
  = processRequests active0 (before ++ [Quit]).
Proof.
  unfold processRequests. generalize (mkPipe [] ∅ active0 []).
  induction before as [|e rest IH]; intros s; [done|].
  destruct e; cbn [app processLoop]; by rewrite ?IH.
Qed.

(** X14: a name [unlikelyName] returns has at most [maxNameLen + 1]
    characters, and at most [maxNameLen] when the suffix has fewer than
    190 characters; a name that is not empty is longer than the suffix by
    at least two characters, a label and the dot. *)
Theorem unlikelyName_length (sub : string) (w : World) :
  ∃ name w',
    unlikelyName sub w = Done name w'
    ∧ String.length name ≤ maxNameLen + 1
    ∧ (String.length sub < 190 → String.length name ≤ maxNameLen)
    ∧ (name ≠ "" → String.length sub + 2 ≤ String.length name).
Proof.
  destruct (unlikelyName_spec sub w)
    as (name & w' & Hrun & _ & _ & _ & Hshape).
  exists name, w'. split; [done|].
  destruct Hshape as [->|(label & -> & Hne & _ & Hlen & _)].
  - cbn. unfold maxNameLen. split_and!; [lia|lia|done].
  - rewrite !string_length_app. cbn [String.length].
    assert (1 ≤ String.length label) by (destruct label; [done|cbn; lia]).
    unfold maxNameLen, maxLabelLen in *.
    change (Z.of_nat 63 / 2)%Z with 31%Z in Hlen.
    destruct (Z.of_nat 253 - Z.of_nat (String.length sub) >? Z.of_nat 63)%Z
      eqn:Hbig.
    + rewrite Z.gtb_ltb in Hbig. apply Z.ltb_lt in Hbig.
      split_and!; lia.
    + rewrite Z.gtb_ltb in Hbig. apply Z.ltb_ge in Hbig.
      split_and!; lia.
Qed.

(** X15: [NextNameserver] panics exactly on an empty pool (the division
    by [len(usableServers)]); on any pool it draws one random number,
    issues no query and leaves the pool as it is, and the server it
    returns is a member of the pool. *)
Theorem NextNameserver_panics_iff (w : World) :
  (isPanic (NextNameserver w) = true ↔ usableServers w = [])
  ∧ finalWorld (NextNameserver w)
    = mkWorld (S (cursor w)) (qlog w) (usableServers w)
  ∧ (∀ server w', NextNameserver w = Done server w' →
                  server ∈ usableServers w).
Proof.
  destruct (usableServers w) as [|s0 pool] eqn:Hpool.
  - rewrite (NextNameserver_empty_pool w Hpool), Hpool.
    split_and!; [done|done|discriminate].
  - destruct (NextNameserver_spec w) as (server & Hrun & Hin).
    { by rewrite Hpool. }
    rewrite Hrun, Hpool in *. split_and!; [done|done|].
    intros server' w' Heq. by injection Heq as <- _.
Qed.

End Service.

(** * Worked examples

  The statements above at the fixtures of [Mock], and the inputs at
  which the code departs from a reading of the specification. *)

Import Mock.

(** C1, witness: in a zone where every name resolves to 10.0.0.1, the
  request for [foo.wild.com] tagged BRUTE ends at the wildcard return,
  and the same request tagged SEARCH is forwarded. *)
Lemma search_exempt_from_wildcard_witness :
(∃ v c w,
   performDNSRequest resolverWild GetARecordData trim252F rnd
                     (fooWild BRUTE) ∅ ready = Done (v, c) w
   ∧ v = WildcardMatch)
∧ (∃ v c w,
     performDNSRequest resolverWild GetARecordData trim252F rnd
                       (fooWild SEARCH) ∅ ready = Done (v, c) w
     ∧ mkRequest "foo.wild.com" "wild.com" "10.0.0.1" SEARCH "bing"
       ∈ emitted v).
Proof.
split.
- edestruct (search_exempt_from_wildcard resolverWild GetARecordData
               trim252F rnd (fooWild BRUTE) ∅ ready)
    as (v & Hrun & Hiff & _).
  + vm_compute. reflexivity.
  + vm_compute. reflexivity.
  + vm_compute. discriminate.
  + vm_compute. reflexivity.
  + eexists _, _, _. split; [exact Hrun|].
    apply Hiff. split; [reflexivity|discriminate].
- edestruct (search_exempt_from_wildcard resolverWild GetARecordData
               trim252F rnd (fooWild SEARCH) ∅ ready)
    as (v & Hrun & _ & _ & _ & Hsearch).
  + vm_compute. reflexivity.
  + vm_compute. reflexivity.
  + vm_compute. discriminate.
  + vm_compute. reflexivity.
  + eexists _, _, _. split; [exact Hrun|].
    destruct (Hsearch eq_refl) as [_ Hown].
    apply (Hown (mkAnswer "foo.wild.com" 1 300 "10.0.0.1")).
    * apply list_elem_of_here.
    * reflexivity.
    * vm_compute. reflexivity.
Defined.

(** C2, witness: the decision for [foo.wild.com] under [wild.com]. *)
Lemma matchesWildcard_decision_witness :
∃ b wildcards' w',
  matchesWildcard resolverWild rnd "foo.wild.com" "wild.com" "10.0.0.1"
                  ∅ ready = Done (b, wildcards') w'
  ∧ (b = true ↔
     ∃ j, 1 ≤ j ≤ List.length (Split "foo.wild.com" ".")
                  - List.length (Split "wild.com" ".")
          ∧ positiveFor wildcards' (suffixAt (Split "foo.wild.com" ".") j)
                        "10.0.0.1")
  ∧ (∀ prefix, "foo.wild.com" = prefix +:+ "." +:+ "wild.com" →
       1 ≤ List.length (Split "foo.wild.com" ".")
           - List.length (Split "wild.com" ".")
       ∧ suffixAt (Split "foo.wild.com" ".")
                  (List.length (Split "foo.wild.com" ".")
                   - List.length (Split "wild.com" "."))
         = "wild.com").
Proof.
apply (matchesWildcard_decision resolverWild rnd
         "foo.wild.com" "wild.com" "10.0.0.1" ∅ ready).
- intros server name Hsucc. vm_compute in Hsucc. discriminate.
- vm_compute. discriminate.
- intros sub e Hsub. rewrite lookup_empty in Hsub. discriminate.
Defined.

(** C2, counterexample: [foo.wild.com] under the apex [wild.com] has no
  suffix that is shorter than the name and longer than the apex, and yet
  the decision is true: the wildcard found is the one of the apex. *)
Lemma matchesWildcard_examines_apex :
∃ wildcards' w',
  matchesWildcard resolverWild rnd "foo.wild.com" "wild.com" "10.0.0.1"
                  ∅ ready = Done (true, wildcards') w'
  ∧ positiveFor wildcards' "wild.com" "10.0.0.1"
  ∧ ¬ ∃ j, 1 ≤ j < List.length (Split "foo.wild.com" ".")
                   - List.length (Split "wild.com" ".")
           ∧ positiveFor wildcards'
                         (suffixAt (Split "foo.wild.com" ".") j) "10.0.0.1".
Proof.
eexists _, _. split_and!.
- vm_compute. reflexivity.
- eexists _, {[ "10.0.0.1" ]}. split_and!.
  + vm_compute. reflexivity.
  + reflexivity.
  + reflexivity.
  + by apply elem_of_singleton.
- intros (j & Hj & _). vm_compute in Hj. lia.
Qed.

(** C3, witness: the three probes under [wild.com] resolve to the same
  non-empty set, and the entry stored reports the wildcard. *)
Lemma wildcardDetection_protocol_witness :
∃ entry w',
  lookupOrDetect resolverWild rnd "wild.com" "wild.com" ∅ ready
  = Done (entry, <["wild.com" := entry]> ∅) w'
  ∧ entry = mkWildcard true (Some {[ "10.0.0.1" ]})
  ∧ countQType "A" (qlog w') ≤ 3
  ∧ Forall (sentTo "8.8.8.8:53") (qlog w').
Proof.
edestruct (wildcardDetection_protocol resolverWild rnd
             "wild.com" "wild.com" ∅ ready)
  as (entry & w' & added & Hrun & _ & _ & Hlog & Hsent & Hcount & Hentry & _).
- apply lookup_empty.
- vm_compute. reflexivity.
- vm_compute. reflexivity.
- vm_compute. reflexivity.
- vm_compute. reflexivity.
- exists entry, w'. cbn [qlog ready] in Hlog. rewrite app_nil_l in Hlog.
  rewrite Hlog. split_and!; [exact Hrun| |exact Hcount|exact Hsent].
  apply Hentry. split_and!.
  + vm_compute. reflexivity.
  + vm_compute. reflexivity.
  + vm_compute. reflexivity.
  + intros Hempty. vm_compute in Hempty. discriminate.
Defined.

(** C3, counterexample: nothing resolves under [example.com]; detection
  gives up after the first probe, so one name is looked up, not three. *)
Lemma wildcardDetection_stops_after_failed_probe :
result (wildcardDetection resolverAlias rnd "example.com" "example.com" ready)
= Some None
∧ countQType "A"
    (qlog (finalWorld
             (wildcardDetection resolverAlias rnd
                                "example.com" "example.com" ready))) = 1
∧ List.length
    (qlog (finalWorld
             (wildcardDetection resolverAlias rnd
                                "example.com" "example.com" ready))) = 3.
Proof. split_and!; vm_compute; reflexivity. Qed.

(** C4, the failing input: [a.example.com] is an alias of
  [x.notexample.com]; the request forwarded for the target carries the
  domain [example.com], of which its name is no subdomain. *)
Lemma forwards_name_outside_domain :
emittedBy (performDNSRequest resolverAlias GetARecordData trim252F rnd
                             aliasRequest ∅ ready)
= [ mkRequest "a.example.com" "example.com" "1.2.3.4" BRUTE "brute";
    mkRequest "x.notexample.com" "example.com" "1.2.3.4" DNS "DNS" ]
∧ HasSuffix "x.notexample.com" "example.com" = true
∧ HasSuffix "x.notexample.com" ".example.com" = false
∧ "x.notexample.com" ≠ "example.com".
Proof. split_and!; [vm_compute; reflexivity..|discriminate]. Qed.

(** The events of a run in which a name arrives first without a domain
  and then with one. *)
Definition lateDomain : list Event :=
[ Input (mkRequest "a.ex.com" "" "" BRUTE "bootstrap");
  Input (mkRequest "a.ex.com" "ex.com" "" BRUTE "brute");
  Tick; Tick; Tick; Check ].

(** The events of a run with a repeated name. *)
Definition repeatedName : list Event :=
[ Input (mkRequest "www.ex.com" "ex.com" "" BRUTE "brute");
  Input (mkRequest "%2Fwww.ex.com" "ex.com" "" SCRAPE "web");
  Input (mkRequest "mail.ex.com" "ex.com" "" CERT "crt");
  Tick; Tick; Tick ].

(** C5, witness: the run with a repeated name. *)
Lemma dispatch_first_occurrences_witness :
let s := processRequests trim252F false repeatedName in
let inputs := inputsOf trim252F repeatedName in
NoDup (map reqName (dispatched s))
∧ (∀ r, r ∈ dispatched s →
        reqName r ≠ "" ∧ reqDomain r ≠ ""
        ∧ ∃ k, firstOccurrence inputs k r)
∧ (queue s = [] →
   ∀ k r, firstOccurrence inputs k r →
          reqName r ≠ "" → reqDomain r ≠ "" → r ∈ dispatched s).
Proof. exact (dispatch_first_occurrences trim252F false repeatedName). Defined.

(** C5, counterexample: the name [a.ex.com] is not empty and comes with
  the matching domain [ex.com], so the specification counts it; it is
  never dispatched, because its first request had no domain. *)
Lemma dispatch_drops_later_domain :
dispatched (processRequests trim252F false lateDomain) = []
∧ queue (processRequests trim252F false lateDomain) = []
∧ size (eligibleNames trim252F
          [ mkRequest "a.ex.com" "" "" BRUTE "bootstrap";
            mkRequest "a.ex.com" "ex.com" "" BRUTE "brute" ]) = 1.
Proof. split_and!; vm_compute; reflexivity. Qed.

(** C6, witness: the lookup of [a.example.com], whose alias target has an
  A record and no AAAA record. *)
Lemma dnsQuery_error_iff_witness :
∃ r w2,
  dnsQuery resolverAlias "example.com" "a.example.com" "8.8.8.8:53" fresh
  = Done r w2
  ∧ (is_Some (snd r) ↔
     is_Some (snd (resolverAlias "x.notexample.com" "8.8.8.8:53" "A"))
     ∧ is_Some (snd (resolverAlias "x.notexample.com" "8.8.8.8:53" "AAAA")))
  ∧ (is_Some (snd r) → r = ([], Some noRecordsError))
  ∧ (snd r = None →
     fst r = [mkAnswer "a.example.com" 5 300 "x.notexample.com"]
             ++ okAnswers (resolverAlias "x.notexample.com" "8.8.8.8:53" "A")
             ++ okAnswers (resolverAlias "x.notexample.com" "8.8.8.8:53" "AAAA")).
Proof.
apply (dnsQuery_error_iff resolverAlias "example.com" "a.example.com"
         "8.8.8.8:53" fresh
         [mkAnswer "a.example.com" 5 300 "x.notexample.com"]
         "x.notexample.com"
         (mkWorld 0 [("a.example.com", "8.8.8.8:53", "CNAME");
                     ("x.notexample.com", "8.8.8.8:53", "CNAME")] [])).
vm_compute. reflexivity.
Defined.

(** C8, counterexample: under a suffix of 203 characters the label has 50
  characters, more than [maxLabelLen / 2], and the name 254, more than
  [maxNameLen]. *)
Lemma unlikelyName_long_label :
∃ label,
  result (unlikelyName rnd longSuffix fresh)
  = Some (label +:+ "." +:+ longSuffix)
  ∧ String.length longSuffix = 203
  ∧ String.length label = 50
  ∧ Z.min (Z.of_nat maxLabelLen / 2)
          (Z.of_nat maxNameLen - Z.of_nat (String.length longSuffix)) = 31%Z
  ∧ String.length (label +:+ "." +:+ longSuffix) = 254.
Proof.
exists "iajzr1oshp5bm02d-l7389nfwyteuxk4qv6gciajzr1oshp5bm".
split_and!; vm_compute; reflexivity.
Qed.

(** When the draws for the first two characters both select the hyphen,
  the first is skipped and the second opens the label. *)
Lemma unlikelyName_hyphen_label :
result (unlikelyName rndHyphen "wild.com" fresh)
= Some "-----------------------------.wild.com".
Proof. vm_compute. reflexivity. Qed.

(** C9, witness: with one server answering the probe, the pool is that
  server and selection returns it. *)
Lemma init_keeps_probed_servers_witness :
∃ w',
  init resolverWild fresh = Done tt w'
  ∧ usableServers w' = ["8.8.8.8:53"]
  ∧ ∃ w'', NextNameserver rnd w' = Done "8.8.8.8:53" w''.
Proof.
destruct (init_keeps_probed_servers resolverWild rnd fresh)
  as (w' & Hrun & _ & Hpool & _ & Hnext).
assert (Hkept : usableServers w' = ["8.8.8.8:53"]).
{ rewrite Hpool. vm_compute. reflexivity. }
exists w'. split_and!; [exact Hrun|exact Hkept|].
destruct Hnext as (server & w'' & Hsel & Hin & _).
{ rewrite Hkept. discriminate. }
rewrite Hkept in Hin. apply list_elem_of_singleton in Hin. subst server.
by exists w''.
Defined.

(** C9, counterexample: when no server answers the probe, start-up still
  completes, the pool is empty, and the first selection of a resolver
  divides by zero. *)
Lemma init_completes_with_empty_pool :
result (init resolverDown fresh) = Some tt
∧ usableServers (finalWorld (init resolverDown fresh)) = []
∧ isPanic (NextNameserver rnd (finalWorld (init resolverDown fresh))) = true.
Proof. split_and!; vm_compute; reflexivity. Qed.

(** A CNAME lookup that reports success without an answer stops the walk
  with a panic at the first hop. *)
Lemma recursiveCNAME_panics_on_empty_success :
recursiveCNAME resolverEmpty "bad.example.com" "8.8.8.8:53" fresh
= Panic (mkWorld 0 [("bad.example.com", "8.8.8.8:53", "CNAME")] []).
Proof. vm_compute. reflexivity. Qed.

(** The CNAME lookups of [resolverAlias] and [resolverWild] keep the
  contract of the DNS library: one that succeeds carries an answer. *)
Lemma resolverAlias_contract (server : string) :
cnameAnswersNonEmpty resolverAlias server.
Proof.
intros name. unfold resolverAlias.
change (String.eqb "CNAME" "A") with false.
change (String.eqb "CNAME" "CNAME") with true. cbv iota.
destruct (String.eqb name "a.example.com"); cbn; [discriminate|done].
Qed.

Lemma resolverWild_contract (server : string) :
cnameAnswersNonEmpty resolverWild server.
Proof. intros name Hsucc. vm_compute in Hsucc. discriminate. Qed.

(** X2, witness: the chain that starts at [a.example.com] has one link
  and ends at [x.notexample.com], whose CNAME lookup fails. *)
Lemma recursiveCNAME_chain_witness :
∃ answers w',
  recursiveCNAME resolverAlias "a.example.com" "8.8.8.8:53" fresh
  = Done (answers, "x.notexample.com") w'
  ∧ aliasChain resolverAlias "8.8.8.8:53" "a.example.com" answers
  ∧ List.length answers = 1
  ∧ is_Some (snd (resolverAlias "x.notexample.com" "8.8.8.8:53" "CNAME")).
Proof.
destruct (recursiveCNAME_chain resolverAlias "a.example.com" "8.8.8.8:53"
            fresh (resolverAlias_contract "8.8.8.8:53"))
  as (answers & final & w' & Hrun & Hchain & Hfinal & _ & Hstop).
assert (Hval : recursiveCNAME resolverAlias "a.example.com" "8.8.8.8:53" fresh
               = Done ([mkAnswer "a.example.com" 5 300 "x.notexample.com"],
                       "x.notexample.com")
                      (mkWorld 0 [("a.example.com", "8.8.8.8:53", "CNAME");
                                  ("x.notexample.com", "8.8.8.8:53", "CNAME")]
                               [])).
{ vm_compute. reflexivity. }
rewrite Hval in Hrun. injection Hrun as <- <- <-.
eexists _, _. split_and!; [exact Hval|exact Hchain|reflexivity|].
apply Hstop. cbn. lia.
Defined.

(** X5, witness: a suffix of 406 characters. *)
Lemma overlong_suffix_negative_witness :
lookupOrDetect resolverWild rnd (longSuffix +:+ longSuffix) "abc" ∅ ready
= Done (mkWildcard false None,
        <[longSuffix +:+ longSuffix := mkWildcard false None]> ∅)
       (mkWorld 1 [] ["8.8.8.8:53"]).
Proof.
apply (overlong_suffix_negative resolverWild rnd
         (longSuffix +:+ longSuffix) "abc" ∅ ready).
- vm_compute. lia.
- vm_compute. discriminate.
- apply lookup_empty.
Defined.

(** X6, witness: the second decision for [foo.wild.com] is read from the
  cache the first one left. *)
Lemma matchesWildcard_cached_witness :
∃ wildcards' w',
  matchesWildcard resolverWild rnd "foo.wild.com" "wild.com" "10.0.0.1"
                  ∅ ready = Done (true, wildcards') w'
  ∧ matchesWildcard resolverWild rnd "foo.wild.com" "wild.com" "10.0.0.1"
                    wildcards' w' = Done (true, wildcards') w'
  ∧ ∃ b', matchesWildcard resolverWild rnd "foo.wild.com" "wild.com"
                          "10.9.9.9" wildcards' fresh
          = Done (b', wildcards') fresh.
Proof.
destruct (matchesWildcard resolverWild rnd "foo.wild.com" "wild.com"
                          "10.0.0.1" ∅ ready) as [[b wildcards'] w'|w']
  eqn:Hrun; [|vm_compute in Hrun; discriminate].
assert (Hb : b = true).
{ vm_compute in Hrun. by injection Hrun as <- _ _. }
subst b.
destruct (matchesWildcard_cached resolverWild rnd "foo.wild.com" "wild.com"
            "10.0.0.1" ∅ ready true wildcards' w' Hrun) as [Hsame Hother].
exists wildcards', w'. split_and!; [reflexivity|apply Hsame|apply Hother].
Defined.

(** X7, witness: the decision for [foo.wild.com] adds the entry of
  [wild.com] to an empty cache, and nothing else. *)
Lemma matchesWildcard_cache_growth_witness :
∃ b wildcards' w',
  matchesWildcard resolverWild rnd "foo.wild.com" "wild.com" "10.0.0.1"
                  ∅ ready = Done (b, wildcards') w'
  ∧ is_Some (wildcards' !! "wild.com")
  ∧ wildcards' !! "foo.wild.com" = None.
Proof.
destruct (matchesWildcard resolverWild rnd "foo.wild.com" "wild.com"
                          "10.0.0.1" ∅ ready) as [[b wildcards'] w'|w']
  eqn:Hrun; [|vm_compute in Hrun; discriminate].
destruct (matchesWildcard_cache_growth resolverWild rnd "foo.wild.com"
            "wild.com" "10.0.0.1" ∅ ready b wildcards' w' Hrun)
  as [_ Hkeys].
exists b, wildcards', w'. split_and!; [reflexivity| |].
- apply Hkeys. right. exists 1. split; [vm_compute; lia|].
  vm_compute. reflexivity.
- apply eq_None_not_Some. intros Hsome. apply Hkeys in Hsome.
  destruct Hsome as [Hold|(j & Hj & Hk)].
  + rewrite lookup_empty in Hold. by destruct Hold.
  + assert (j = 1) as -> by (vm_compute in Hj; lia).
    vm_compute in Hk. discriminate.
Defined.

(** X8, witness: two match requests and the quit signal, with a third
  request behind it that is never served. *)
Lemma processWildcardMatches_serves_witness :
∃ answers wildcards w',
  processWildcardMatches resolverWild rnd
    [ MatchRequest (mkRequest "foo.wild.com" "wild.com" "10.0.0.1" BRUTE "b");
      MatchRequest (mkRequest "bar.wild.com" "wild.com" "10.0.0.2" ALT "a");
      Stop;
      MatchRequest (mkRequest "baz.wild.com" "wild.com" "10.0.0.1" ALT "a") ]
    ready = Done (answers, wildcards) w'
  ∧ List.length answers = 2
  ∧ cacheWellFormed wildcards
  ∧ usableServers w' = ["8.8.8.8:53"].
Proof.
apply (processWildcardMatches_serves resolverWild rnd
         [ MatchRequest
             (mkRequest "foo.wild.com" "wild.com" "10.0.0.1" BRUTE "b");
           MatchRequest
             (mkRequest "bar.wild.com" "wild.com" "10.0.0.2" ALT "a");
           Stop;
           MatchRequest
             (mkRequest "baz.wild.com" "wild.com" "10.0.0.1" ALT "a") ]
         ready resolverWild_contract).
vm_compute. discriminate.
Defined.


(** X10, witness: nothing resolves for [nothing.example.com]; the
  request is discarded and the cache stays empty. *)
Lemma discards_leave_cache_witness :
∃ wildcards' w',
  performDNSRequest resolverAlias GetARecordData trim252F rnd
    (mkRequest "nothing.example.com" "example.com" "" BRUTE "brute")
    ∅ ready = Done (NoRecords, wildcards') w'
  ∧ wildcards' = ∅
  ∧ ∃ added, qlog w' = added ∧ List.length added ≤ 12.
Proof.
destruct (performDNSRequest resolverAlias GetARecordData trim252F rnd
            (mkRequest "nothing.example.com" "example.com" "" BRUTE "brute")
            ∅ ready) as [[v wildcards'] w'|w']
  eqn:Hrun; [|vm_compute in Hrun; discriminate].
assert (Hv : v = NoRecords).
{ vm_compute in Hrun. by injection Hrun as <- _ _. }
subst v.
destruct (discards_leave_cache resolverAlias GetARecordData trim252F rnd
            (mkRequest "nothing.example.com" "example.com" "" BRUTE "brute")
            ∅ ready NoRecords wildcards' w' Hrun) as [Hdiscard _].
destruct (Hdiscard (or_introl eq_refl)) as (Hcache & added & Hlog & Hlen).
exists wildcards', w'. split_and!; [reflexivity|exact Hcache|].
exists added. split; [exact Hlog|exact Hlen].
Defined.

(** X11, witness: the request for [x.wild.com] as its own domain, in a
  zone in which every name resolves, is not dropped as a wildcard
  match. *)
Lemma short_name_never_suppressed_witness :
∃ v wildcards' w',
  performDNSRequest resolverWild GetARecordData trim252F rnd
    (mkRequest "x.wild.com" "x.wild.com" "" BRUTE "brute")
    ∅ ready = Done (v, wildcards') w'
  ∧ v ≠ WildcardMatch
  ∧ wildcards' = ∅.
Proof.
destruct (performDNSRequest resolverWild GetARecordData trim252F rnd
            (mkRequest "x.wild.com" "x.wild.com" "" BRUTE "brute")
            ∅ ready) as [[v wildcards'] w'|w']
  eqn:Hrun; [|vm_compute in Hrun; discriminate].
destruct (short_name_never_suppressed resolverWild GetARecordData trim252F
            rnd (mkRequest "x.wild.com" "x.wild.com" "" BRUTE "brute")
            ∅ ready v wildcards' w') as [Hv Hcache].
- vm_compute. lia.
- exact Hrun.
- exists v, wildcards', w'. by split_and!.
Defined.
